(** * MindArmour: the fuzzing engine and the membership-inference metric

    A shallow embedding of
    - [mindarmour/fuzz_testing/fuzzing.py] (seed selection, coverage gains,
      mutation validity, configuration checking, the fuzzing loop and the
      final evaluation), and
    - [_eval_info] and the methods [train] and [eval] of [MembershipInference]
      in [mindarmour/diff_privacy/evaluation/membership_inference.py].

    Conventions.
    - numpy arrays are one-dimensional lists; floating-point values are
      rationals ([Q]), so rounding is not modelled.  The two thresholds of
      [_is_trans_valid], [0.02*size] and [0.2*255], are exact in this reading.
    - A Python exception is a value [Raise e] of [result]; stateful code runs
      in the monad [M] below, whose state holds the outcomes of the calls to
      [random.choice] still to come and the state of the objects the fuzzer
      talks to (model, coverage engine, mutators). *)

From Stdlib Require Import ZArith QArith Qabs Qminmax List Bool String Lia Lqa Sorted.
From stdpp Require Import base gmap strings list.

Local Open Scope Z_scope.

(** ** Exceptions and results *)

Inductive exn : Set :=
| TypeError | ValueError | KeyError | IndexError | AttributeError
| AxisError            (* numpy.AxisError *)
| ExternalError.       (* raised inside a collaborator that is not modelled *)

Inductive result (A : Type) : Type :=
| Ok (a : A)
| Raise (e : exn).
Arguments Ok {A} a.
Arguments Raise {A} e.

Definition rbind {A B} (r : result A) (k : A → result B) : result B :=
  match r with
  | Ok a => k a
  | Raise e => Raise e
  end.

Declare Scope res_scope.
Delimit Scope res_scope with res.
Notation "'try' x := r 'in' k" := (rbind r (λ x, k))
  (at level 10, x name, r at level 100, k at level 200) : res_scope.
Notation "'try_' r 'in' k" := (rbind r (λ _, k))
  (at level 10, r at level 100, k at level 200) : res_scope.

(** A check that either passes or raises. *)
Definition check := option exn.
Definition run_check (c : check) : result unit :=
  match c with
  | None => Ok tt
  | Some e => Raise e
  end.

Definition Qlt_bool (a b : Q) : bool := negb (Qle_bool b a).

(** ** The numpy operations the sources use, on one-dimensional arrays *)

Module np.

(** Elementwise binary operation with numpy's broadcasting rule for
    one-dimensional operands: equal lengths, or one operand of length 1.
    [None] when the shapes cannot be broadcast together. *)
Definition broadcast {A B} (f : A → A → B) (a b : list A) : option (list B) :=
  if decide (length a = length b) then Some (zip_with f a b)
  else match a, b with
       | [x], _ => Some (map (f x) b)
       | _, [y] => Some (map (λ x, f x y) a)
       | _, _ => None
       end.

Definition broadcastable {A} (a b : list A) : Prop :=
  length a = length b ∨ length a = 1%nat ∨ length b = 1%nat.

(** [a - b]: ValueError when the operands cannot be broadcast together. *)
Definition subtract (a b : list Q) : result (list Q) :=
  match broadcast Qminus a b with
  | Some d => Ok d
  | None => Raise ValueError
  end.

(** [a & b] on integer arrays. *)
Definition bitwise_and (a b : list Z) : result (list Z) :=
  match broadcast Z.land a b with
  | Some d => Ok d
  | None => Raise ValueError
  end.

(** [np.sum(a == b)] on integer arrays.  With shapes that cannot be
    broadcast together numpy 1.17 (the version setup.py asks for) warns
    and answers the scalar [False], whose sum is 0. *)
Definition count_equal (a b : list Z) : Z :=
  match broadcast Z.eqb a b with
  | Some d => Z.of_nat (length (filter (λ x, x = true) d))
  | None => 0
  end.

(** [np.sum] of an integer array, without the wrap-around of the 64-bit
    accumulator; it is exact for the 0/1 arrays of predictions and
    membership labels, whose sums are bounded by their length. *)
Definition sum (a : list Z) : Z := fold_right Z.add 0 a.

(** [np.linalg.norm(d, ord=0)]: the number of non-zero entries. *)
Definition norm_l0 (d : list Q) : Q :=
  inject_Z (Z.of_nat (length (filter (λ x, negb (Qeq_bool x 0)) d))).

(** [np.linalg.norm(d, ord=np.inf)]: the largest absolute value; numpy
    raises ValueError on an empty array (a maximum without identity). *)
Definition norm_inf (d : list Q) : result Q :=
  match d with
  | [] => Raise ValueError
  | x :: d' => Ok (fold_left (λ m y, Qmax m (Qabs y)) d' (Qabs x))
  end.

(** [np.argmax] of one row: the first index of the largest entry;
    ValueError on an empty row. *)
Fixpoint argmax_from (best : Q) (ibest i : nat) (row : list Q) : nat :=
  match row with
  | [] => ibest
  | x :: row' =>
      if Qlt_bool best x then argmax_from x i (S i) row'
      else argmax_from best ibest (S i) row'
  end.

Definition argmax (row : list Q) : result nat :=
  match row with
  | [] => Raise ValueError
  | x :: row' => Ok (argmax_from x 0 1 row')
  end.

(** [np.argmax(np.asarray(rows), axis=1)].  An empty list becomes an array
    of shape [(0,)] and rows of different lengths a one-dimensional array
    of objects: neither has an axis 1. *)
Definition argmax_axis1 (rows : list (list Q)) : result (list nat) :=
  match rows with
  | [] => Raise AxisError
  | row0 :: _ =>
      if forallb (λ row, length row =? length row0)%nat rows then
        fold_right (λ row acc,
          match argmax row, acc with
          | Ok i, Ok l => Ok (i :: l)
          | Raise e, _ => Raise e
          | _, Raise e => Raise e
          end) (Ok []) rows
      else Raise AxisError
  end.

(** [a == b] on index arrays: [None] stands for the scalar [False] that
    numpy 1.17 answers when the shapes cannot be broadcast together. *)
Definition equal (a b : list nat) : option (list bool) := broadcast Nat.eqb a b.

(** [temp.any()]; the scalar [False] is a Python bool and has no [any]. *)
Definition any (temp : option (list bool)) : result bool :=
  match temp with
  | Some l => Ok (existsb id l)
  | None => Raise AttributeError
  end.

(** [temp[cond]] for a Python list of booleans [cond]. *)
Definition mask (temp : option (list bool)) (cond : list bool)
  : result (option (list bool)) :=
  match temp with
  | None => Raise TypeError
  | Some l =>
      match cond with
      | [] => Ok (Some [])
      | _ =>
          if (length l =? length cond)%nat
          then Ok (Some (map fst (filter (λ p, snd p = true) (zip l cond))))
          else Raise IndexError
      end
  end.

(** [np.sum(temp) / np.size(temp)]. *)
Definition rate (l : list bool) : Q :=
  inject_Z (Z.of_nat (length (filter (λ x, x = true) l)))
  / inject_Z (Z.of_nat (length l)).

End np.

(** ** [_coverage_gains] *)

(** [gains = [0] + coverages[:-1]], then the elementwise difference
    [np.array(coverages) - np.array(gains)].  The two operands have the same
    length unless [coverages] is empty, where numpy broadcasts the empty
    array against [[0]] to the empty array; [zip_with] gives the same. *)
Definition _coverage_gains (coverages : list Q) : list Q :=
  let gains := 0%Q :: removelast coverages in
  zip_with Qminus coverages gains.

(** ** [_is_trans_valid] *)

Definition array := list Q.

Definition pixels_change_rate : Q := 2 # 100.
Definition pixel_value_change_rate : Q := 2 # 10.

Definition _is_trans_valid (seed mutate_sample : array) : result bool :=
  (try diff := np.subtract seed mutate_sample in
   let size := inject_Z (Z.of_nat (length diff)) in
   let l0_norm := np.norm_l0 diff in
   try linf := np.norm_inf diff in
   if Qlt_bool (pixels_change_rate * size) l0_norm
   then Ok (Qlt_bool linf 256)
   else Ok (Qlt_bool linf (pixel_value_change_rate * 255)))%res.

(** The rule as the specification words it (the docstring of
    [_is_trans_valid] orders the two cases the same way): few changed pixels
    (at most 2%) with any change below 256, or many changed pixels with every
    change below [0.2*255].  Kept apart from the code for comparison. *)
Definition spec_trans_valid (seed mutate_sample : array) : result bool :=
  (try diff := np.subtract seed mutate_sample in
   let size := inject_Z (Z.of_nat (length diff)) in
   let l0_norm := np.norm_l0 diff in
   try linf := np.norm_inf diff in
   if Qle_bool l0_norm (pixels_change_rate * size)
   then Ok (Qlt_bool linf 256)
   else Ok (Qlt_bool linf (pixel_value_change_rate * 255)))%res.

(** ** [_eval_info] (membership inference) *)

Definition eval_options : list string := ["precision"; "accuracy"; "recall"]%string.

Definition _eval_info (pred truth : list Z) (option : string) : result Q :=
  if bool_decide (length pred = 0%nat ∨ length truth = 0%nat) then Raise ValueError
  else if String.eqb option "accuracy" then
    let count := np.count_equal pred truth in
    Ok (inject_Z count / inject_Z (Z.of_nat (length pred)))%Q
  else if String.eqb option "precision" then
    (try both := np.bitwise_and pred truth in
     let count := np.sum both in
     if np.sum pred =? 0 then Ok (-1)%Q
     else Ok (inject_Z count / inject_Z (np.sum pred))%Q)%res
  else if String.eqb option "recall" then
    (try both := np.bitwise_and pred truth in
     let count := np.sum both in
     if np.sum truth =? 0 then Ok (-1)%Q
     else Ok (inject_Z count / inject_Z (np.sum truth))%Q)%res
  else Raise ValueError.

(** ** Python values of the configuration *)

Local Set Warnings "-register-all".

Inductive pyval : Type :=
| PNone
| PBool (b : bool)
| PInt (z : Z)
| PFloat (q : Q)
| PStr (s : string)
| PArr (a : array)
| PList (l : list pyval)
| PTuple (l : list pyval)
| PDict (d : list (string * pyval)).   (* insertion order kept *)

Inductive pytype : Set := t_int | t_float | t_str | t_list | t_tuple | t_dict.

Definition dict_lookup (d : list (string * pyval)) (k : string) : option pyval :=
  match List.find (λ kv, String.eqb (fst kv) k) d with
  | Some kv => Some (snd kv)
  | None => None
  end.

(** [d[k] = v] on a dictionary. *)
Fixpoint dict_set (d : list (string * pyval)) (k : string) (v : pyval)
  : list (string * pyval) :=
  match d with
  | [] => [(k, v)]
  | (k', v') :: d' =>
      if String.eqb k' k then (k, v) :: d' else (k', v') :: dict_set d' k v
  end.

(** [v[k]] for a string key. *)
Definition getitem (v : pyval) (k : string) : result pyval :=
  match v with
  | PDict d =>
      match dict_lookup d k with
      | Some x => Ok x
      | None => Raise KeyError
      end
  | _ => Raise TypeError
  end.

(** [v.keys()]. *)
Definition keys (v : pyval) : result (list string) :=
  match v with
  | PDict d => Ok (map fst d)
  | _ => Raise AttributeError
  end.

(** Whether [hash(v)] succeeds: lists, dicts and numpy arrays have no hash,
    a tuple has one when its elements have. *)
Fixpoint hashable (v : pyval) : bool :=
  match v with
  | PArr _ | PList _ | PDict _ => false
  | PTuple l => forallb hashable l
  | _ => true
  end.

(** [for x in v]: the keys of a dict, the elements of a list, a tuple or an
    array, the characters of a string; nothing else is iterable. *)
Definition iterate (v : pyval) : result (list pyval) :=
  match v with
  | PDict d => Ok (map (λ kv, PStr (fst kv)) d)
  | PList l | PTuple l => Ok l
  | PStr s => Ok (map (λ c, PStr (String c EmptyString)) (list_ascii_of_string s))
  | PArr a => Ok (map PFloat a)
  | _ => Raise TypeError
  end.

(** [for k in v] over a dictionary: the loop of [_metamorphic_mutate] over
    the [params] of an entry, which [_check_mutate_config] has passed
    through [check_param_type(..., dict)]. *)
Definition iter_keys (v : pyval) : result (list string) :=
  match v with
  | PDict d => Ok (map fst d)
  | _ => Raise TypeError
  end.

(** The elements of a list or tuple ([for x in v], [len(v)], [v[i]],
    [choice(v)]). *)
Definition elements_of (v : pyval) : result (list pyval) :=
  match v with
  | PList l | PTuple l => Ok l
  | _ => Raise TypeError
  end.

(** [v in names] for a list of strings. *)
Definition str_in (v : pyval) (names : list string) : bool :=
  match v with
  | PStr s => bool_decide (s ∈ names)
  | _ => false
  end.

(** [name in v]: membership for a list or tuple, substring for a string. *)
Definition contains (v : pyval) (name : string) : result bool :=
  match v with
  | PList l | PTuple l =>
      Ok (existsb (λ x, match x with PStr s => String.eqb s name | _ => false end) l)
  | PStr s => Ok (match String.index 0 name s with Some _ => true | None => false end)
  | PDict d => Ok (bool_decide (name ∈ map fst d))
  | _ => Raise TypeError
  end.

(** [a >= b] on numbers. *)
Definition number_of (v : pyval) : result Q :=
  match v with
  | PInt z => Ok (inject_Z z)
  | PFloat q => Ok q
  | PBool b => Ok (if b then 1 else 0)%Q
  | _ => Raise TypeError
  end.

Definition py_ge (a b : pyval) : result bool :=
  (try x := number_of a in
   try y := number_of b in
   Ok (Qle_bool y x))%res.

(** ** The strategy tables of [Fuzzer.__init__] *)

Definition _affine_trans_list : list string :=
  ["Translate"; "Scale"; "Shear"; "Rotate"]%string.
Definition _pixel_value_trans_list : list string :=
  ["Contrast"; "Brightness"; "Blur"; "Noise"]%string.
Definition _attacks_list : list string := ["FGSM"; "PGD"; "MDIIM"]%string.

(** The keys of [self._strategies]. *)
Definition _strategies : list string :=
  ["Contrast"; "Brightness"; "Blur"; "Noise"; "Translate"; "Scale"; "Shear";
   "Rotate"; "FGSM"; "PGD"; "MDIIM"]%string.

(** One entry of [self._attack_param_checklists[method]]: the allowed
    dtypes and, where the table has one, the range. *)
Record param_check := { dtype : list pytype; range : option (list pyval) }.

Definition unit_range : option (list pyval) := Some [PInt 0; PInt 1].

Definition _attack_param_checklists (method : string)
  : option (list (string * param_check)) :=
  if String.eqb method "FGSM" then
    Some [("eps", {| dtype := [t_float]; range := unit_range |});
          ("alpha", {| dtype := [t_float]; range := unit_range |});
          ("bounds", {| dtype := [t_tuple]; range := None |})]%string
  else if String.eqb method "PGD" then
    Some [("eps", {| dtype := [t_float]; range := unit_range |});
          ("eps_iter", {| dtype := [t_float]; range := unit_range |});
          ("nb_iter", {| dtype := [t_int]; range := Some [PInt 0; PInt 100000] |});
          ("bounds", {| dtype := [t_tuple]; range := None |})]%string
  else if String.eqb method "MDIIM" then
    Some [("eps", {| dtype := [t_float]; range := unit_range |});
          ("norm_level",
           {| dtype := [t_str; t_int];
              range := Some [PInt 1; PInt 2; PStr "1"; PStr "2"; PStr "l1";
                             PStr "l2"; PStr "inf"; PStr "np.inf"] |});
          ("prob", {| dtype := [t_float]; range := unit_range |});
          ("bounds", {| dtype := [t_tuple]; range := None |})]%string
  else None.

(** ** [_check_eval_metrics] *)

Definition available_metrics : list string :=
  ["accuracy"; "attack_success_rate"; "kmnc"; "nbc"; "snac"]%string.

(** Every available metric is lower case already, so [elem.lower()] is the
    element itself. *)
Definition _check_eval_metrics (eval_metrics : pyval) : result pyval :=
  match eval_metrics with
  | PList l | PTuple l =>
      if forallb (λ elem, str_in elem available_metrics) l
      then Ok (PList l) else Raise ValueError
  | PStr s => if String.eqb s "auto" then Ok (PStr "auto") else Raise ValueError
  | _ => Raise TypeError
  end.

(** ** The state of a run and its monad *)

(** A seed of the queue: [[image, label, only_pixel_trans]]. *)
Record Seed := { img : array; lab : array; only_pixel : Z }.

(** The four lists a run accumulates. *)
Record outputs := {
  fuzz_samples : list array;
  true_labels : list array;
  fuzz_preds : list array;
  fuzz_strategies : list pyval
}.

(** Python truth of an integer. *)
Definition truthy (z : Z) : bool := negb (z =? 0).

(** The objects a [Fuzzer] talks to (target model, coverage engine, mutators
    and whatever random state they own) form the world.  [tape] holds the
    outcomes of the calls to [random.choice] still to come. *)
Record state (World : Type) := { tape : list nat; world : World }.
Arguments Build_state {World}.
Arguments tape {World}.
Arguments world {World}.

(** [None]: the run asked for more random choices than the tape holds. *)
Definition M (World A : Type) : Type := state World → option (state World * result A).

Section Monad.

Context {World : Type}.

Definition ret {A} (a : A) : M World A := λ s, Some (s, Ok a).
Definition raise {A} (e : exn) : M World A := λ s, Some (s, Raise e).
Definition lift {A} (r : result A) : M World A := λ s, Some (s, r).
Definition bind {A B} (m : M World A) (k : A → M World B) : M World B := λ s,
  match m s with
  | Some (s', Ok a) => k a s'
  | Some (s', Raise e) => Some (s', Raise e)
  | None => None
  end.
Definition stuck {A} : M World A := λ _, None.

(** A call into the world. *)
Definition call {A} (f : World → World * result A) : M World A := λ s,
  let '(w, r) := f (world s) in Some ({| tape := tape s; world := w |}, r).

Definition update (f : World → World) : M World unit := λ s,
  Some ({| tape := tape s; world := f (world s) |}, Ok tt).

Definition read {A} (f : World → A) : M World A := λ s, Some (s, Ok (f (world s))).

(** [random.choice(seq)]: IndexError on an empty sequence, else the
    element the next entry of the tape points at. *)
Definition choice {A} (seq : list A) : M World A := λ s,
  match seq with
  | [] => Some (s, Raise IndexError)
  | x0 :: _ =>
      match tape s with
      | [] => None
      | r :: t =>
          Some ({| tape := t; world := world s |},
                Ok (nth (r mod length seq) seq x0))
      end
  end.

End Monad.

Notation "'let*' x := m 'in' k" := (bind m (λ x, k))
  (at level 10, x name, m at level 100, k at level 200, only parsing).
Notation "'let*' ' p := m 'in' k" := (bind m (λ x, match x with p => k end))
  (at level 10, p pattern, m at level 100, k at level 200, only parsing).
Notation "'do*' m 'in' k" := (bind m (λ _, k))
  (at level 10, m at level 100, k at level 200, only parsing).

Fixpoint foldM {World A B} (f : B → A → M World B) (b : B) (l : list A) : M World B :=
  match l with
  | [] => ret b
  | x :: l' => let* b' := f b x in foldM f b' l'
  end.

Definition forM_ {World A} (f : A → M World unit) (l : list A) : M World unit :=
  foldM (λ _ x, f x) tt l.

(** [ensures m Q]: whenever [m] returns a value, the value satisfies [Q]. *)
Definition ensures {World A} (m : M World A) (Q : A → Prop) : Prop :=
  ∀ s s' a, m s = Some (s', Ok a) → Q a.

(** [quietly m Q]: [m] ends without taking any random choice, and a value
    it returns satisfies [Q]. *)
Definition quietly {World A} (m : M World A) (Q : A → Prop) : Prop :=
  ∀ s, ∃ s' r, m s = Some (s', r) ∧ tape s' = tape s ∧ ∀ a, r = Ok a → Q a.

(** [silently m Q]: [m] ends in the state it started in, and a value it
    returns satisfies [Q]. *)
Definition silently {World A} (m : M World A) (Q : A → Prop) : Prop :=
  ∀ s, ∃ r, m s = Some (s, r) ∧ ∀ a, r = Ok a → Q a.

(** ** Collaborators

    The helpers of [mindarmour.utils._check_param] return their argument or
    raise; which arguments they reject is left open.  The mutators, the model
    and the coverage engine act on the world and may raise. *)
Class Collaborators (World : Type) := {
  check_param_type : string → pyval → pytype → check;
  check_param_multi_types : string → pyval → list pytype → check;
  check_norm_level : pyval → check;
  check_param_in_range : string → pyval → pyval → pyval → check;
  check_int_positive : string → Z → check;
  check_numpy_param : string → array → check;
  (** [self._strategies[method]()] and [self._strategies[method](network,
      loss_fn=loss_fn)]: the object built is the one [mutates[method]] names
      from then on. *)
  construct : string → World → World * result unit;
  construct_attack : string → World → World * result unit;
  (** [mutates[method].set_params] with the selected parameters as keyword
      arguments, and [.transform(image)]. *)
  set_params : string → list (string * pyval) → World → World * result unit;
  transform : string → array → World → World * result array;
  (** [mutates[method].__setattr__(name, value)] and
      [.generate(np.array([image]), np.array([label]))[0]]. *)
  setattr : string → string → pyval → World → World;
  generate : string → array → array → World → World * result array;
  (** [self._target_model.predict(Tensor(samples)).asnumpy()], row by row. *)
  predict : list array → World → World * result (list array);
  (** [self._coverage_metrics]. *)
  calculate_coverage : list array → World → World * result unit;
  get_kmnc : World → Q;
  get_nbc : World → Q;
  get_snac : World → Q
}.

Section Fuzzer.

Context {World : Type} {C : Collaborators World}.

(** *** [_select_next] *)

Definition _select_next {A} (initial_seeds : list A) : M World (A * list A) :=
  let* seed_num := choice (seq 0 (length initial_seeds)) in
  match initial_seeds !! seed_num with
  | Some seed => ret (seed, delete seed_num initial_seeds)
  | None => raise IndexError
  end.

(** *** [_check_attack_params] *)

Definition check_bounds (param_value : pyval) : result unit :=
  (try_ run_check (check_param_multi_types "bounds" param_value [t_tuple]) in
   try bounds := elements_of param_value in
   if negb (length bounds =? 2)%nat then Raise ValueError
   else
     try_ fold_left (λ acc bound_value,
            try_ acc in
            run_check (check_param_multi_types "bound" bound_value [t_int; t_float]))
          bounds (Ok tt) in
     match bounds with
     | [lower; upper] =>
         try ge := py_ge lower upper in
         if ge then Raise ValueError else Ok tt
     | _ => Raise IndexError
     end)%res.

Definition check_attack_value (allowed : list (string * param_check))
    (param_name : string) (param_value : pyval) : result unit :=
  (if String.eqb param_name "bounds" then check_bounds param_value
   else if String.eqb param_name "norm_level" then
     run_check (check_norm_level param_value)
   else
     match List.find (λ kv, String.eqb (fst kv) param_name) allowed with
     | None => Raise KeyError
     | Some (_, c) =>
         match range c with
         | Some (low :: high :: _) =>
             try_ run_check (check_param_multi_types param_name param_value (dtype c)) in
             run_check (check_param_in_range param_name param_value low high)
         | Some _ => Raise IndexError
         | None => Raise KeyError
         end
     end)%res.

Definition _check_attack_params (method : string) (params : pyval) : result unit :=
  match _attack_param_checklists method with
  | None => Raise KeyError
  | Some allowed =>
      (try names := iterate params in
       fold_left (λ acc param_name,
         try_ acc in
         match param_name with
         | PStr name =>
             if negb (bool_decide (name ∈ map fst allowed)) then Raise ValueError
             else
               try values := getitem params name in
               try_ run_check (check_param_type name values t_list) in
               try vs := elements_of values in
               fold_left (λ acc' param_value,
                 try_ acc' in check_attack_value allowed name param_value)
                 vs (Ok tt)
         | _ =>
             (* [param_name not in allow_params] hashes [param_name] *)
             if hashable param_name then Raise ValueError else Raise TypeError
         end)
         names (Ok tt))%res
  end.

(** *** [_check_mutate_config] *)

(** The body of the loop over the entries; the result is the new value
    of [has_pixel_trans]. *)
Definition check_config (has_pixel_trans : bool) (config : pyval) : result bool :=
  (try_ run_check (check_param_type "config" config t_dict) in
   try ks := keys config in
   if negb (bool_decide (ks ⊆ ["method"; "params"]%string
                         ∧ ["method"; "params"]%string ⊆ ks))
   then Raise KeyError
   else
     try method := getitem config "method" in
     try params := getitem config "params" in
     if negb (str_in method _strategies) then Raise ValueError
     else
       let has_pixel_trans :=
         if str_in method _pixel_value_trans_list then true else has_pixel_trans in
       try_ run_check (check_param_type "params" params t_dict) in
       try_ (if str_in method _attacks_list then
               match method with
               | PStr m => _check_attack_params m params
               | _ => Raise TypeError
               end
             else
               try ks := keys params in
               fold_left (λ acc key,
                 try_ acc in
                 try v := getitem params key in
                 run_check (check_param_type key v t_list))
                 ks (Ok tt)) in
       Ok has_pixel_trans)%res.

Definition _check_mutate_config (mutate_config : list pyval)
  : result (list pyval) :=
  (try_ run_check (check_param_type "mutate_config" (PList mutate_config) t_list) in
   try has_pixel_trans :=
     fold_left (λ acc config, try h := acc in check_config h config)
               mutate_config (Ok false) in
   if negb has_pixel_trans then Raise ValueError
   else Ok mutate_config)%res.

(** *** [_init_mutates] *)

(** The result is the set of keys of the dictionary [mutates]; the object
    stored under a key lives in the world and is addressed by that key. *)
Definition _init_mutates (mutate_config : list pyval) : M World (gset string) :=
  foldM (λ mutates mutate,
    let* method := lift (getitem mutate "method") in
    match method with
    | PStr m =>
        if bool_decide (m ∈ _strategies) then
          do* call ((if bool_decide (m ∈ _attacks_list)
                     then construct_attack else construct) m) in
          ret ({[ m ]} ∪ mutates)
        else raise KeyError
    | _ => raise KeyError
    end) (∅ : gset string) mutate_config.

(** *** [_metamorphic_mutate] *)

(** [while strategy['method'] not in self._pixel_value_trans_list:
       strategy = choice(mutate_config)].
    Every turn of the loop takes one entry of the tape, so the loop is run
    with one unit of fuel more than the tape is long. *)
Fixpoint reselect (fuel : nat) (mutate_config : list pyval) (strategy : pyval)
  : M World pyval :=
  match fuel with
  | O => stuck
  | S fuel' =>
      let* method := lift (getitem strategy "method") in
      if str_in method _pixel_value_trans_list then ret strategy
      else
        let* strategy' := choice mutate_config in
        reselect fuel' mutate_config strategy'
  end.

Definition choose_strategy (only_pixel_trans : Z) (mutate_config : list pyval)
  : M World pyval :=
  let* strategy := choice mutate_config in
  if truthy only_pixel_trans
  then λ s, reselect (S (length (tape s))) mutate_config strategy s
  else ret strategy.

(** [for p in params: selected_param[p] = choice(params[p])]. *)
Definition select_params (params : pyval) : M World (list (string * pyval)) :=
  let* names := lift (iter_keys params) in
  foldM (λ selected_param p,
    let* values := lift (getitem params p) in
    let* vs := lift (elements_of values) in
    let* v := choice vs in
    ret (dict_set selected_param p v)) [] names.

(** One turn of the loop of [_metamorphic_mutate], up to the validity
    check: the candidate [mutate_sample] and its [method]. *)
Definition mutate_once (seed : Seed) (mutates : gset string)
    (mutate_config : list pyval) : M World (Seed * pyval) :=
  let only_pixel_trans := only_pixel seed in
  let* strategy := choose_strategy only_pixel_trans mutate_config in
  let* method := lift (getitem strategy "method") in
  let* m := match method with
            | PStr m => if bool_decide (m ∈ mutates) then ret m else raise KeyError
            | _ => raise KeyError
            end in
  let* params := lift (getitem strategy "params") in
  let* selected_param := select_params params in
  let* mutate_sample :=
    if str_in method (_pixel_value_trans_list ++ _affine_trans_list) then
      let* selected_param :=
        if String.eqb m "Shear" then
          let shear_keys := map fst selected_param in
          if bool_decide ("factor_x"%string ∈ shear_keys)
             && bool_decide ("factor_y"%string ∈ shear_keys)
          then
            let* k := choice ["factor_x"; "factor_y"]%string in
            ret (dict_set selected_param k (PInt 0))
          else ret selected_param
        else ret selected_param in
      do* call (set_params m selected_param) in
      call (transform m (img seed))
    else
      do* forM_ (λ kv, update (setattr m ("_" ++ fst kv) (snd kv))) selected_param in
      call (generate m (img seed) (lab seed)) in
  let only_pixel_trans :=
    if negb (str_in method _pixel_value_trans_list) then 1 else only_pixel_trans in
  ret ({| img := mutate_sample; lab := lab seed; only_pixel := only_pixel_trans |},
       method).

Fixpoint mutate_loop (n : nat) (seed : Seed) (mutates : gset string)
    (mutate_config : list pyval)
    (mutate_samples : list Seed) (mutate_strategies : list pyval)
  : M World (list Seed * list pyval) :=
  match n with
  | O => ret (mutate_samples, mutate_strategies)
  | S n' =>
      let* '(mutate_sample, method) := mutate_once seed mutates mutate_config in
      let* valid := lift (_is_trans_valid (img seed) (img mutate_sample)) in
      if valid
      then mutate_loop n' seed mutates mutate_config
             (mutate_samples ++ [mutate_sample]) (mutate_strategies ++ [method])
      else mutate_loop n' seed mutates mutate_config mutate_samples mutate_strategies
  end.

Definition _metamorphic_mutate (seed : Seed) (mutates : gset string)
    (mutate_config : list pyval) (mutate_num_per_seed : Z)
  : M World (list Seed * list pyval) :=
  let* '(mutate_samples, mutate_strategies) :=
    mutate_loop (Z.to_nat mutate_num_per_seed) seed mutates mutate_config [] [] in
  match mutate_samples with
  | [] => ret ([seed], [PNone])
  | _ => ret (mutate_samples, mutate_strategies)
  end.

(** *** [_get_coverages_and_predict] *)

Definition _get_coverages_and_predict (mutate_samples : list Seed)
    (coverage_metric : string) : M World (list Q * list array) :=
  let samples := map img mutate_samples in
  let* predictions := call (predict samples) in
  let* coverages :=
    foldM (λ coverages index,
      let mutate := take (S index) samples in
      do* call (calculate_coverage mutate) in
      let* coverages :=
        if String.eqb coverage_metric "KMNC"
        then let* c := read get_kmnc in ret (coverages ++ [c]) else ret coverages in
      let* coverages :=
        if String.eqb coverage_metric "NBC"
        then let* c := read get_nbc in ret (coverages ++ [c]) else ret coverages in
      if String.eqb coverage_metric "SNAC"
      then let* c := read get_snac in ret (coverages ++ [c]) else ret coverages)
      [] (seq 0 (length samples)) in
  ret (coverages, predictions).

(** *** [_evaluate] *)

(** [metrics == 'auto' or name in metrics]. *)
Definition wanted (metrics : pyval) (name : string) : result bool :=
  match metrics with
  | PStr "auto" => Ok true
  | _ => contains metrics name
  end.

Definition _evaluate (out : outputs) (metrics : pyval) : M World (gmap string pyval) :=
  let* label_classes := lift (np.argmax_axis1 (true_labels out)) in
  let* pred_classes := lift (np.argmax_axis1 (fuzz_preds out)) in
  let temp := np.equal label_classes pred_classes in
  let metrics_report : gmap string pyval := ∅ in
  let* w := lift (wanted metrics "accuracy") in
  let* metrics_report :=
    if w : bool then
      let* some := lift (np.any temp) in
      let acc := if some : bool then PFloat (np.rate (default [] temp)) else PInt 0 in
      ret (<["Accuracy"%string := acc]> metrics_report)
    else ret metrics_report in
  let* w := lift (wanted metrics "attack_success_rate") in
  let* metrics_report :=
    if w : bool then
      let cond := map (λ elem, str_in elem _attacks_list) (fuzz_strategies out) in
      let* temp := lift (np.mask temp cond) in
      let* some := lift (np.any temp) in
      let attack_success_rate :=
        if some : bool then PFloat (1 - np.rate (default [] temp)) else PNone in
      ret (<["Attack_success_rate"%string := attack_success_rate]> metrics_report)
    else ret metrics_report in
  let* w1 := lift (wanted metrics "kmnc") in
  let* w2 := if w1 : bool then ret true else lift (wanted metrics "nbc") in
  let* w3 := if w2 : bool then ret true else lift (wanted metrics "snac") in
  do* (if w3 : bool then call (calculate_coverage (fuzz_samples out)) else ret tt) in
  let* w := lift (wanted metrics "kmnc") in
  let* metrics_report :=
    if w : bool then
      let* kmnc := read get_kmnc in
      ret (<["Neural_coverage_KMNC"%string := PFloat kmnc]> metrics_report)
    else ret metrics_report in
  let* w := lift (wanted metrics "nbc") in
  let* metrics_report :=
    if w : bool then
      let* nbc := read get_nbc in
      ret (<["Neural_coverage_NBC"%string := PFloat nbc]> metrics_report)
    else ret metrics_report in
  let* w := lift (wanted metrics "snac") in
  let* metrics_report :=
    if w : bool then
      let* snac := read get_snac in
      ret (<["Neural_coverage_SNAC"%string := PFloat snac]> metrics_report)
    else ret metrics_report in
  ret metrics_report.

(** *** [fuzzing] *)

(** The body of [for mutate, cov, pred, strategy in zip(...)]: every
    mutant is recorded, and re-queued when its coverage gain is positive. *)
Definition record_mutant (acc : outputs * list Seed)
    (item : Seed * Q * array * pyval) : outputs * list Seed :=
  let '(out, initial_seeds) := acc in
  let '(mutate, cov, pred, strategy) := item in
  ({| fuzz_samples := fuzz_samples out ++ [img mutate];
      true_labels := true_labels out ++ [lab mutate];
      fuzz_preds := fuzz_preds out ++ [pred];
      fuzz_strategies := fuzz_strategies out ++ [strategy] |},
   if Qlt_bool 0 cov then initial_seeds ++ [mutate] else initial_seeds).

(** [while initial_seeds and iter_num < max_iters], with
    [budget = max_iters - iter_num]. *)
Fixpoint fuzz_loop (budget : nat) (mutates : gset string)
    (mutate_config : list pyval) (coverage_metric : string)
    (mutate_num_per_seed : Z)
    (seed : Seed) (initial_seeds : list Seed) (out : outputs) : M World outputs :=
  match budget, initial_seeds with
  | S budget', _ :: _ =>
      let* '(mutate_samples, mutate_strategies) :=
        _metamorphic_mutate seed mutates mutate_config mutate_num_per_seed in
      let* '(coverages, predicts) :=
        _get_coverages_and_predict mutate_samples coverage_metric in
      let coverage_gains := _coverage_gains coverages in
      let '(out', initial_seeds') :=
        fold_left record_mutant
          (zip (zip (zip mutate_samples coverage_gains) predicts) mutate_strategies)
          (out, initial_seeds) in
      let* '(seed', initial_seeds'') := _select_next initial_seeds' in
      fuzz_loop budget' mutates mutate_config coverage_metric
        mutate_num_per_seed seed' initial_seeds'' out'
  | _, _ => ret out
  end.

(** The loop of [fuzzing] at one evaluation of its test: the seed in hand
    and the queue, and, when the loop goes on, what [_metamorphic_mutate]
    makes of the seed in this turn. *)
Record turn := {
  turn_seed : Seed;
  turn_queue : list Seed;
  turn_samples : list Seed;
  turn_strategies : list pyval
}.

(** [fuzz_loop], which also lists its turns: one for every evaluation of
    the test of the loop, the last one being the evaluation that ends it. *)
Fixpoint fuzz_turns (budget : nat) (mutates : gset string)
    (mutate_config : list pyval) (coverage_metric : string)
    (mutate_num_per_seed : Z)
    (seed : Seed) (initial_seeds : list Seed) (out : outputs)
  : M World (outputs * list turn) :=
  match budget, initial_seeds with
  | S budget', _ :: _ =>
      let* '(mutate_samples, mutate_strategies) :=
        _metamorphic_mutate seed mutates mutate_config mutate_num_per_seed in
      let* '(coverages, predicts) :=
        _get_coverages_and_predict mutate_samples coverage_metric in
      let coverage_gains := _coverage_gains coverages in
      let '(out', initial_seeds') :=
        fold_left record_mutant
          (zip (zip (zip mutate_samples coverage_gains) predicts) mutate_strategies)
          (out, initial_seeds) in
      let* '(seed', initial_seeds'') := _select_next initial_seeds' in
      let* '(out'', turns) :=
        fuzz_turns budget' mutates mutate_config coverage_metric
          mutate_num_per_seed seed' initial_seeds'' out' in
      ret (out'',
           {| turn_seed := seed; turn_queue := initial_seeds;
              turn_samples := mutate_samples;
              turn_strategies := mutate_strategies |} :: turns)
  | _, _ =>
      ret (out, [{| turn_seed := seed; turn_queue := initial_seeds;
                    turn_samples := []; turn_strategies := [] |}])
  end.

(** The checks on one initial seed, and [seed.append(0)]. *)
Definition check_seed (seed : list array) : result Seed :=
  (try_ run_check (check_param_type "seed" (PList (map PArr seed)) t_list) in
   match seed with
   | [image; label] =>
       try_ run_check (check_numpy_param "seed[0]" image) in
       try_ run_check (check_numpy_param "seed[1]" label) in
       Ok {| img := image; lab := label; only_pixel := 0 |}
   | _ => Raise ValueError
   end)%res.

(** The keys of the report of a run with [eval_metrics='auto'], as the
    specification lists them. *)
Definition report_keys : gset string :=
  {[ "Accuracy"; "Attack_success_rate"; "Neural_coverage_KMNC";
     "Neural_coverage_NBC"; "Neural_coverage_SNAC" ]}%string.

Definition no_outputs : outputs :=
  {| fuzz_samples := []; true_labels := []; fuzz_preds := []; fuzz_strategies := [] |}.

Definition fuzzing (mutate_config : list pyval) (initial_seeds : list (list array))
    (coverage_metric : string) (eval_metrics : pyval)
    (max_iters mutate_num_per_seed : Z)
  : M World (outputs * option (gmap string pyval)) :=
  let* eval_metrics_ := lift (_check_eval_metrics eval_metrics) in
  do* (if negb (bool_decide (coverage_metric ∈ ["KMNC"; "NBC"; "SNAC"]%string))
       then raise ValueError else ret tt) in
  do* lift (run_check (check_int_positive "max_iters" max_iters)) in
  do* lift (run_check (check_int_positive "mutate_num_per_seed" mutate_num_per_seed)) in
  let* mutate_config := lift (_check_mutate_config mutate_config) in
  let* mutates := _init_mutates mutate_config in
  do* lift (run_check (check_param_type "initial_seeds"
              (PList (map (λ seed, PList (map PArr seed)) initial_seeds)) t_list)) in
  do* (match initial_seeds with [] => raise ValueError | _ => ret tt end) in
  let* initial_seeds :=
    foldM (λ seeds seed, let* s := lift (check_seed seed) in ret (seeds ++ [s]))
          [] initial_seeds in
  let* '(seed, initial_seeds) := _select_next initial_seeds in
  let* out :=
    fuzz_loop (Z.to_nat max_iters) mutates mutate_config coverage_metric
      mutate_num_per_seed seed initial_seeds no_outputs in
  let* metrics_report :=
    match eval_metrics_ with
    | PNone => ret None
    | _ => let* r := _evaluate out eval_metrics_ in ret (Some r)
    end in
  ret (out, metrics_report).

End Fuzzer.

(** [lineage mutates mutate_config root methods seed]: [seed] is reached
    from [root] by a chain of mutation attempts (turns of the loop of
    [_metamorphic_mutate], in any state of the run), and [methods] are the
    methods of these attempts, oldest first. *)
Inductive lineage {World : Type} {C : Collaborators World}
    (mutates : gset string) (mutate_config : list pyval)
  : Seed → list pyval → Seed → Prop :=
| lineage_root seed : lineage mutates mutate_config seed [] seed
| lineage_step root methods parent child method (s s' : state World) :
    lineage mutates mutate_config root methods parent →
    mutate_once parent mutates mutate_config s = Some (s', Ok (child, method)) →
    lineage mutates mutate_config root (methods ++ [method]) child.

(** The next [n] attempts on [seed], from state [s] on, all reach the
    validity check and fail it. *)
Fixpoint attempts_all_invalid {World : Type} {C : Collaborators World}
    (n : nat) (seed : Seed) (mutates : gset string) (mutate_config : list pyval)
    (s : state World) : Prop :=
  match n with
  | O => True
  | S n' =>
      ∃ s' mutate_sample method,
        mutate_once seed mutates mutate_config s
          = Some (s', Ok (mutate_sample, method))
        ∧ _is_trans_valid (img seed) (img mutate_sample) = Ok false
        ∧ attempts_all_invalid n' seed mutates mutate_config s'
  end.

Definition is_pixel_method (method : pyval) : Prop :=
  str_in method _pixel_value_trans_list = true.

(** An entry of the configuration whose method, if it has one, is not a
    pixel-value transform. *)
Definition no_pixel_method (config : pyval) : Prop :=
  ∀ method, getitem config "method" = Ok method →
    str_in method _pixel_value_trans_list = false.

(** A seed that descends from one of [roots] by mutation attempts; when an
    attempt of its history used a method that is no pixel-value transform,
    the seed carries the pixel-only flag, and every attempt on it draws a
    pixel-value transform and yields a flagged sample again. *)
Definition pixel_only_kept {World : Type} {C : Collaborators World}
    (mutates : gset string) (mutate_config : list pyval) (roots : list Seed)
    (x : Seed) : Prop :=
  ∃ root methods,
    root ∈ roots
    ∧ lineage mutates mutate_config root methods x
    ∧ (Exists (λ method, ¬ is_pixel_method method) methods →
       truthy (only_pixel x) = true
       ∧ ∀ (s s' : state World) child next,
           mutate_once x mutates mutate_config s = Some (s', Ok (child, next)) →
           is_pixel_method next ∧ truthy (only_pixel child) = true).

(** A sample of a turn and its strategy: the fallback (the seed itself,
    with None), or a sample that carries the flag when its method is no
    pixel-value transform, and, when the seed carried the flag, a
    pixel-value transform as method and the flag again. *)
Definition flag_kept (seed sample : Seed) (strategy : pyval) : Prop :=
  (strategy = PNone ∧ sample = seed)
  ∨ ((¬ is_pixel_method strategy → truthy (only_pixel sample) = true)
     ∧ (truthy (only_pixel seed) = true →
        is_pixel_method strategy ∧ truthy (only_pixel sample) = true)).

(** The four lists of a run have one length. *)
Definition same_lengths (out : outputs) : Prop :=
  length (fuzz_samples out) = length (true_labels out)
  ∧ length (true_labels out) = length (fuzz_preds out)
  ∧ length (fuzz_preds out) = length (fuzz_strategies out).

(** A mutant of [seed] as [_metamorphic_mutate] records it, with its
    strategy. *)
Definition recorded_mutant (seed : Seed) (mutates : gset string)
    (mutate_config : list pyval) (sample : Seed) (strategy : pyval) : Prop :=
  lab sample = lab seed
  ∧ _is_trans_valid (img seed) (img sample) = Ok true
  ∧ ∃ config m, config ∈ mutate_config
      ∧ getitem config "method" = Ok strategy ∧ strategy = PStr m ∧ m ∈ mutates.

(** [P] holds of every record of a run: the sample, its label and its
    strategy at one index of the lists. *)
Definition each_record (P : array → array → pyval → Prop) (out : outputs) : Prop :=
  ∀ i x l st,
    fuzz_samples out !! i = Some x → true_labels out !! i = Some l →
    fuzz_strategies out !! i = Some st → P x l st.

(** An array of 0/1 values (predictions and membership labels). *)
Definition binary (a : list Z) : Prop := Forall (λ z, z = 0 ∨ z = 1) a.

(** ** Membership inference

    [MembershipInference] of membership_inference.py.  The object keeps the
    attack models it has trained in [self.attack_list]; the target model,
    the datasets and scikit-learn are the world outside. *)

(** [str.lower], on ASCII strings. *)
Definition lower_ascii (c : Ascii.ascii) : Ascii.ascii :=
  let n := Ascii.nat_of_ascii c in
  if ((65 <=? n) && (n <=? 90))%nat then Ascii.ascii_of_nat (n + 32) else c.

Fixpoint str_lower (s : string) : string :=
  match s with
  | EmptyString => EmptyString
  | String c s' => String (lower_ascii c) (str_lower s')
  end.

Definition method_list : list string := ["knn"; "lr"; "mlp"; "rf"]%string.
Definition metrics_list : list string := ["precision"; "accuracy"; "recall"]%string.

Record Inference (Attacker World : Type) :=
  { attack_list : list Attacker; outside : World }.
Arguments Build_Inference {Attacker World}.
Arguments attack_list {Attacker World}.
Arguments outside {Attacker World}.

(** What [train] and [eval] call: [self._transform] (predictions of the
    target model, their floating-point losses and a shuffle),
    [get_attack_model] of mindarmour.diff_privacy.evaluation.attacker, and
    [attacker.predict]. *)
Class Attack (Dataset Features Attacker World : Type) := {
  _transform : Dataset → Dataset → World → World * result (Features * list Z);
  get_attack_model : Features → list Z → pyval → World → World * result Attacker;
  attacker_predict : Attacker → Features → World → World * result (list Z)
}.

Section MembershipInference.

Context {Dataset Features Attacker World : Type}.
Context {A : Attack Dataset Features Attacker World}.

Definition outside_call {X} (f : World → World * result X)
  : M (Inference Attacker World) X :=
  call (λ self, let '(w, r) := f (outside self) in
                ({| attack_list := attack_list self; outside := w |}, r)).

(** [self.attack_list.append(attacker)] *)
Definition attack_list_append (attacker : Attacker)
  : M (Inference Attacker World) unit :=
  update (λ self, {| attack_list := attack_list self ++ [attacker];
                     outside := outside self |}).

(** The body of the first loop of [train]. *)
Definition check_attack_config (config : pyval) : result unit :=
  match config with
  | PDict d =>
      if bool_decide (list_to_set (map fst d) = ({[ "params"; "method" ]} : gset string))
      then
        match dict_lookup d "method" with
        | Some (PStr method) =>
            if bool_decide (str_lower method ∈ method_list) then Ok tt
            else Raise ValueError
        | Some _ => Raise TypeError
        | None => Raise KeyError
        end
      else Raise KeyError
  | _ => Raise TypeError
  end.

(** A dataset argument is [Some] dataset, or [None] for an object that is
    no [Dataset]. *)
Definition train (dataset_train dataset_test : option Dataset) (attack_config : pyval)
  : M (Inference Attacker World) unit :=
  match dataset_train, dataset_test with
  | None, _ | _, None => raise TypeError
  | Some dataset_train, Some dataset_test =>
      match attack_config with
      | PList configs =>
          do* lift (fold_left (λ acc config, try_ acc in check_attack_config config)%res
                      configs (Ok tt)) in
          let* '(features, labels) :=
            outside_call (_transform dataset_train dataset_test) in
          forM_ (λ config,
                   let* attacker :=
                     outside_call (get_attack_model features labels config) in
                   attack_list_append attacker)
                configs
      | _ => raise TypeError
      end
  end.

(** [item[option] = _eval_info(pred, labels, option)] for each option. *)
Definition eval_item (pred labels : list Z) (options : list string)
  : result (gmap string Q) :=
  fold_left (λ acc option,
               try item := acc in
               try score := _eval_info pred labels option in
               Ok (<[option := score]> item))%res
            options (Ok ∅).

(** [set(metrics)] is iterated in an order that Python leaves open; here in
    the order of the first occurrences. *)
Definition eval (dataset_train dataset_test : option Dataset) (metrics : pyval)
  : M (Inference Attacker World) (list (gmap string Q)) :=
  match dataset_train, dataset_test with
  | None, _ | _, None => raise TypeError
  | Some dataset_train, Some dataset_test =>
      let* elems := lift (elements_of metrics) in
      do* (if forallb hashable elems then ret tt else raise TypeError) in
      do* (if forallb (λ elem, str_in elem metrics_list) elems then ret tt
           else raise ValueError) in
      let metrics :=
        remove_dups (omap (λ elem, match elem with PStr s => Some s | _ => None end)
                          elems) in
      let* '(features, labels) :=
        outside_call (_transform dataset_train dataset_test) in
      let* attackers := read attack_list in
      foldM (λ result attacker,
               let* pred := outside_call (attacker_predict attacker features) in
               let* item := lift (eval_item pred labels metrics) in
               ret (result ++ [item]))
            [] attackers
  end.

End MembershipInference.

(** A configuration that [train] accepts. *)
Definition well_formed_config (config : pyval) : Prop :=
  ∃ d method,
    config = PDict d
    ∧ (∀ key, key ∈ map fst d ↔ key = "method"%string ∨ key = "params"%string)
    ∧ dict_lookup d "method" = Some (PStr method)
    ∧ str_lower method ∈ method_list.

(** The key of a report entry that is present when [b] holds. *)
Definition key_if (b : bool) (key : string) : gset string :=
  if b then {[ key ]} else ∅.

(** The two rates of a report, where present: the accuracy is the integer 0
    or a fraction in (0, 1]; the attack success rate is None or a fraction
    in [0, 1). *)
Definition rates_in_range (report : gmap string pyval) : Prop :=
  (∀ v, report !! "Accuracy"%string = Some v →
     v = PInt 0 ∨ ∃ q, v = PFloat q ∧ (0 < q <= 1)%Q)
  ∧ (∀ v, report !! "Attack_success_rate"%string = Some v →
     v = PNone ∨ ∃ q, v = PFloat q ∧ (0 <= q < 1)%Q).

(** ** Concrete inputs used by the examples below *)

Module Example.

Local Open Scope string_scope.

(** A uniform shift of every pixel. *)
Definition shift (d : Q) (image : array) : array := map (λ x, x + d)%Q image.

(** A toy fuzzing target.  The world counts the calls to
    [calculate_coverage] and the KMNC coverage grows with each of them;
    [Noise] shifts every pixel by 300 (never a valid mutation), the other
    transforms by 1 and the attacks by 10; every sample is predicted as
    class 0; no check rejects anything. *)
Definition toy : Collaborators nat := {|
  check_param_type _ _ _ := None;
  check_param_multi_types _ _ _ := None;
  check_norm_level _ := None;
  check_param_in_range _ _ _ _ := None;
  check_int_positive _ _ := None;
  check_numpy_param _ _ := None;
  construct _ w := (w, Ok tt);
  construct_attack _ w := (w, Ok tt);
  set_params _ _ w := (w, Ok tt);
  transform m image w :=
    (w, Ok (if String.eqb m "Noise" then shift 300 image else shift 1 image));
  setattr _ _ _ w := w;
  generate _ image _ w := (w, Ok (shift 10 image));
  predict samples w := (w, Ok (map (λ _, [1; 0]%Q) samples));
  calculate_coverage _ w := (S w, Ok tt);
  get_kmnc w := (inject_Z (Z.of_nat w) / 100)%Q;
  get_nbc _ := 0%Q;
  get_snac _ := 0%Q
|}.

Definition contrast_config : list pyval :=
  [PDict [("method", PStr "Contrast");
          ("params", PDict [("factor", PList [PInt 1; PFloat (3 # 2)])])]].

Definition noise_config : list pyval :=
  [PDict [("method", PStr "Noise"); ("params", PDict [])]].

Definition attack_config : list pyval :=
  [PDict [("method", PStr "Contrast");
          ("params", PDict [("factor", PList [PInt 1; PFloat (3 # 2)])])];
   PDict [("method", PStr "FGSM");
          ("params", PDict [("eps", PList [PFloat (1 # 10)])])]].

Definition affine_attack_config : list pyval :=
  [PDict [("method", PStr "Translate");
          ("params", PDict [("x_bias", PList [PFloat (1 # 10)])])];
   PDict [("method", PStr "FGSM");
          ("params", PDict [("eps", PList [PFloat (1 # 10)])])]].

(** A 32x32 single-channel image and a one-hot label of length 10. *)
Definition image32 : array := repeat (1 # 2)%Q 1024.
Definition label10 : array := [0; 0; 0; 1; 0; 0; 0; 0; 0; 0]%Q.

Definition image4 : array := [0; 0; 0; 0]%Q.
Definition seed_a : Seed := {| img := image4; lab := [1; 0]%Q; only_pixel := 0 |}.

Definition start (tape : list nat) : state nat := {| tape := tape; world := 0%nat |}.

(** Inputs of [_is_trans_valid]: 100 pixels, all of them changed by 100,
    and 100 pixels of which one is changed by 100. *)
Definition flat100 : array := repeat 0%Q 100.
Definition all_changed : array := repeat 100%Q 100.
Definition one_changed : array := 100%Q :: repeat 0%Q 99.

(** A run on two seeds with the Contrast configuration. *)
Definition two_seeds : list (list array) :=
  [[image4; [1; 0]%Q]; [image4; [0; 1]%Q]].

Definition toy_run :=
  fuzzing (C := toy) contrast_config two_seeds "KMNC" (PStr "auto") 5 3
    (start (repeat 0%nat 40)).

Definition toy_final : state nat :=
  Eval vm_compute in
    match toy_run with Some (s, _) => s | None => start [] end.
Definition toy_outputs : outputs :=
  Eval vm_compute in
    match toy_run with Some (_, Ok (out, _)) => out | _ => no_outputs end.
Definition toy_report : gmap string pyval :=
  Eval vm_compute in
    match toy_run with Some (_, Ok (_, Some r)) => r | _ => ∅ end.

(** A lineage: an FGSM attack on [seed_a], then a mutation of the result;
    the second draw first lands on FGSM again and is redrawn. *)
Definition both_mutates : gset string := {[ "Contrast"; "FGSM" ]}.
Definition attacked : Seed :=
  {| img := shift 10 image4; lab := [1; 0]%Q; only_pixel := 1 |}.
Definition retouched : Seed :=
  {| img := shift 1 (shift 10 image4); lab := [1; 0]%Q; only_pixel := 1 |}.

(** A run with an attack in its configuration: the first turn draws FGSM
    twice, and its samples go back into the queue. *)
Definition flagged_run :=
  fuzzing (C := toy) attack_config two_seeds "KMNC" (PStr "auto") 2 2
    (start ([0; 1; 0; 1]%nat ++ repeat 0%nat 26)%list).
Definition flagged_final : state nat :=
  Eval vm_compute in
    match flagged_run with Some (s, _) => s | None => start [] end.
Definition flagged_outputs : outputs :=
  Eval vm_compute in
    match flagged_run with Some (_, Ok (out, _)) => out | _ => no_outputs end.
Definition flagged_report : gmap string pyval :=
  Eval vm_compute in
    match flagged_run with Some (_, Ok (_, Some r)) => r | _ => ∅ end.

(** A run in which every mutation is invalid. *)
Definition noise_run :=
  fuzzing (C := toy) noise_config two_seeds "KMNC" (PStr "auto") 5 3
    (start (repeat 0%nat 40)).

(** Three attempts on [seed_a] with the Contrast configuration. *)
Definition mutants_run :=
  _metamorphic_mutate (C := toy) seed_a {[ "Contrast" ]} contrast_config 3
    (start [0; 0; 0; 1; 0; 0; 5]%nat).
Definition mutants_final : state nat :=
  Eval vm_compute in
    match mutants_run with Some (s, _) => s | None => start [] end.
Definition mutants : list Seed * list pyval :=
  Eval vm_compute in
    match mutants_run with Some (_, Ok r) => r | _ => ([], []) end.


(** One FGSM sample that the model misclassifies. *)
Definition fooled : outputs :=
  {| fuzz_samples := [image4];
     true_labels := [[1; 0]%Q];
     fuzz_preds := [[0; 1]%Q];
     fuzz_strategies := [PStr "FGSM"] |}.

(** Two attack samples, the first misclassified, the second not. *)
Definition mixed : outputs :=
  {| fuzz_samples := [image4; image4];
     true_labels := [[1; 0]%Q; [1; 0]%Q];
     fuzz_preds := [[0; 1]%Q; [1; 0]%Q];
     fuzz_strategies := [PStr "FGSM"; PStr "PGD"] |}.

Definition mixed_run := _evaluate (C := toy) mixed (PStr "auto") (start []).
Definition mixed_final : state nat :=
  Eval vm_compute in
    match mixed_run with Some (s, _) => s | None => start [] end.
Definition mixed_report : gmap string pyval :=
  Eval vm_compute in
    match mixed_run with Some (_, Ok r) => r | _ => ∅ end.

Definition partial_run :=
  _evaluate (C := toy) mixed (PList [PStr "accuracy"; PStr "kmnc"]) (start []).
Definition partial_final : state nat :=
  Eval vm_compute in
    match partial_run with Some (s, _) => s | None => start [] end.
Definition partial_report : gmap string pyval :=
  Eval vm_compute in
    match partial_run with Some (_, Ok r) => r | _ => ∅ end.

(** A toy attack: the features are numbers, an attacker is a threshold
    (the number of calls made before it was trained), and it predicts
    membership for the features above its threshold. *)
Definition toy_attack : Attack (list Z) (list Z) Z nat := {|
  _transform d1 d2 w := (S w, Ok (d1 ++ d2, map (λ _, 1) d1 ++ map (λ _, 0) d2)%list);
  get_attack_model _ _ _ w := (S w, Ok (Z.of_nat w));
  attacker_predict a features w :=
    (w, Ok (map (λ x, if (a <? x)%Z then 1 else 0) features))
|}.

Definition svm_config : list pyval :=
  [PDict [("method", PStr "KNN"); ("params", PDict [])];
   PDict [("method", PStr "svm"); ("params", PDict [])]].

(** An object with two trained attackers, and their evaluation. *)
Definition trained : state (Inference Z nat) :=
  {| tape := []; world := {| attack_list := [0; 5]; outside := 0%nat |} |}.
Definition retrained : state (Inference Z nat) :=
  Eval vm_compute in
    match train (A := toy_attack) (Some [7; 2]) (Some [1; 9])
            (PList [PDict [("method", PStr "KNN"); ("params", PDict [])]])
            trained with
    | Some (s, _) => s
    | None => trained
    end.
Definition scored_run :=
  eval (A := toy_attack) (Some [7; 2]) (Some [1; 9])
    (PList [PStr "accuracy"; PStr "recall"; PStr "accuracy"]) trained.
Definition scored_final : state (Inference Z nat) :=
  Eval vm_compute in
    match scored_run with Some (s, _) => s | None => trained end.
Definition scored : list (gmap string Q) :=
  Eval vm_compute in
    match scored_run with Some (_, Ok r) => r | _ => [] end.

End Example.

(** ** Properties *)

Lemma Qlt_bool_iff a b : Qlt_bool a b = true ↔ (a < b)%Q.
Proof.
  unfold Qlt_bool. rewrite negb_true_iff, <- not_true_iff_false, Qle_bool_iff.
  split; [apply Qnot_le_lt | apply Qlt_not_le].
Qed.

(** *** [_coverage_gains] *)

Lemma length_removelast {A} (l : list A) : length (removelast l) = pred (length l).
Proof.
  induction l as [|x [|y l] IH]; [done..|].
  change (removelast (x :: y :: l)) with (x :: removelast (y :: l)).
  cbn [length] in *. rewrite IH. done.
Qed.

Lemma nth_removelast {A} (l : list A) (i : nat) (d : A) :
  (S i < length l)%nat → nth i (removelast l) d = nth i l d.
Proof.
  revert i. induction l as [|x [|y l] IH]; intros i Hi; cbn [length] in *; [lia..|].
  change (removelast (x :: y :: l)) with (x :: removelast (y :: l)).
  destruct i as [|i]; [done|]. cbn [nth]. apply IH. cbn [length]. lia.
Qed.

Lemma nth_zip_with {A B D} (f : A → B → D) la lb i da db dd :
  (i < length la)%nat → (i < length lb)%nat →
  nth i (zip_with f la lb) dd = f (nth i la da) (nth i lb db).
Proof.
  revert lb i. induction la as [|a la IH]; intros [|b lb] [|i]; cbn; try lia; auto.
  intros. apply IH; lia.
Qed.

(** C6.  For a non-empty list of coverages, [_coverage_gains] returns a list
    of the same length; its first element is the first coverage (the
    difference against the leading zero) and, for every [i > 0], its [i]-th
    element is [coverages[i] - coverages[i-1]]. *)
Theorem coverage_gains_first_difference (coverages : list Q) :
  coverages ≠ [] →
  length (_coverage_gains coverages) = length coverages
  ∧ (nth 0 (_coverage_gains coverages) 0 == nth 0 coverages 0)%Q
  ∧ ∀ i, (0 < i < length coverages)%nat →
      nth i (_coverage_gains coverages) 0%Q
      = (nth i coverages 0 - nth (i - 1) coverages 0)%Q.
Proof.
  intros Hne. unfold _coverage_gains.
  assert (Hlen : length (0%Q :: removelast coverages) = length coverages).
  { cbn [length]. rewrite length_removelast. destruct coverages; [done | cbn; lia]. }
  split; [| split].
  - rewrite length_zip_with. lia.
  - destruct coverages as [|c l]; [done|]. cbn [zip_with nth].
    unfold Qminus. change (- 0)%Q with 0%Q. apply Qplus_0_r.
  - intros i [Hpos Hlt].
    rewrite (nth_zip_with Qminus _ _ i 0%Q 0%Q) by lia.
    f_equal. destruct i as [|i]; [lia|]. cbn [nth].
    replace (S i - 1)%nat with i by lia.
    apply nth_removelast. lia.
Qed.

Lemma coverage_gains_first_difference_witness :
  let coverages := [1 # 4; 1 # 2; 1 # 2]%Q in
  length (_coverage_gains coverages) = 3%nat
  ∧ (nth 0 (_coverage_gains coverages) 0 == 1 # 4)%Q
  ∧ ∀ i, (0 < i < 3)%nat →
      nth i (_coverage_gains coverages) 0%Q
      = (nth i coverages 0 - nth (i - 1) coverages 0)%Q.
Proof.
  intros coverages.
  apply (coverage_gains_first_difference coverages). discriminate.
Defined.

(** *** [_is_trans_valid] *)

Lemma broadcast_same_length {A B} (f : A → A → B) (a b : list A) :
  length a = length b → np.broadcast f a b = Some (zip_with f a b).
Proof. intros H. unfold np.broadcast. by rewrite decide_True. Qed.

(** What the code decides, for a mutated sample of the shape of the seed:
    with more than 2% of the pixels changed it asks for a largest change
    below 256, with at most 2% for one below [0.2*255]. *)
Lemma is_trans_valid_code_rule (seed mutate_sample : array) :
  length seed = length mutate_sample → seed ≠ [] →
  ∃ diff linf,
    np.subtract seed mutate_sample = Ok diff ∧ np.norm_inf diff = Ok linf ∧
    _is_trans_valid seed mutate_sample =
      Ok (if Qlt_bool (pixels_change_rate * inject_Z (Z.of_nat (length diff)))
                      (np.norm_l0 diff)
          then Qlt_bool linf 256
          else Qlt_bool linf (pixel_value_change_rate * 255)).
Proof.
  intros Hlen Hne. unfold _is_trans_valid, np.subtract.
  rewrite broadcast_same_length by done.
  destruct seed as [|x seed]; [done|].
  destruct mutate_sample as [|y mutate_sample]; [done|].
  cbn [zip_with rbind np.norm_inf].
  eexists _, _. split; [done|]. split; [done|].
  by destruct (Qlt_bool _ _).
Qed.

(** C1 (the code departs from the claim).  On 100 pixels all changed by 100
    the change is widespread and large: the claim rejects it and the code
    accepts it.  On 100 pixels of which one is changed by 100 the change is
    sparse: the claim accepts it and the code rejects it.  The two branches
    of the code are the other way round. *)
Theorem is_trans_valid_branches_swapped :
  _is_trans_valid Example.flat100 Example.all_changed = Ok true
  ∧ spec_trans_valid Example.flat100 Example.all_changed = Ok false
  ∧ _is_trans_valid Example.flat100 Example.one_changed = Ok false
  ∧ spec_trans_valid Example.flat100 Example.one_changed = Ok true.
Proof. repeat split; vm_compute; reflexivity. Qed.

(** *** [_eval_info] *)

Lemma broadcast_compatible {A B} (f : A → A → B) (a b : list A) :
  np.broadcastable a b → is_Some (np.broadcast f a b).
Proof.
  intros Hc. unfold np.broadcast.
  destruct (decide (length a = length b)); [done|].
  destruct Hc as [?|[Ha|Hb]]; [done| |].
  - by destruct a as [|x [|??]].
  - destruct b as [|y [|??]]; [done| |done].
    by destruct a as [|x [|??]].
Qed.

Lemma eval_options_cases (option : string) :
  option ∈ eval_options ↔
  option = "accuracy"%string ∨ option = "precision"%string ∨ option = "recall"%string.
Proof.
  unfold eval_options. rewrite !elem_of_cons, elem_of_nil. tauto.
Qed.

(** C10 as amended.  For integer arrays [pred] and [truth] whose shapes numpy
    can combine (equal lengths, or one of length 1): with both non-empty,
    'precision' with [sum(pred) = 0] and 'recall' with [sum(truth) = 0]
    return -1; the call raises exactly when [pred] or [truth] is empty or
    the option is none of 'precision', 'accuracy', 'recall', and what it
    raises is ValueError. *)
Theorem eval_info_sentinel_and_errors (pred truth : list Z) (option : string) :
  np.broadcastable pred truth →
  (pred ≠ [] → truth ≠ [] → option = "precision"%string → np.sum pred = 0 →
   _eval_info pred truth option = Ok (-1)%Q)
  ∧ (pred ≠ [] → truth ≠ [] → option = "recall"%string → np.sum truth = 0 →
     _eval_info pred truth option = Ok (-1)%Q)
  ∧ ((∃ e, _eval_info pred truth option = Raise e)
     ↔ pred = [] ∨ truth = [] ∨ option ∉ eval_options)
  ∧ (∀ e, _eval_info pred truth option = Raise e → e = ValueError).
Proof.
  intros Hc.
  destruct (broadcast_compatible Z.land pred truth Hc) as [both Hboth].
  assert (Hempty : ∀ l : list Z, length l = 0%nat ↔ l = []).
  { intros [|??]; cbn; split; (done || lia). }
  unfold _eval_info, np.bitwise_and. rewrite Hboth. cbn [rbind].
  repeat split.
  - intros Hp Ht -> Hs. rewrite bool_decide_false by (rewrite !Hempty; tauto).
    cbn. by rewrite Hs.
  - intros Hp Ht -> Hs. rewrite bool_decide_false by (rewrite !Hempty; tauto).
    cbn. by rewrite Hs.
  - intros [e He]. case_bool_decide as Hsz.
    + rewrite !Hempty in Hsz. tauto.
    + right; right. rewrite eval_options_cases. intros [-> | [-> | ->]]; cbn in He;
        try discriminate; destruct (_ =? 0); discriminate.
  - intros Hcase. case_bool_decide as Hsz; [by eexists|].
    rewrite !Hempty in Hsz. destruct Hcase as [?|[?|Hopt]]; [tauto..|].
    rewrite eval_options_cases in Hopt.
    destruct (String.eqb_spec option "accuracy"); [tauto|].
    destruct (String.eqb_spec option "precision"); [tauto|].
    destruct (String.eqb_spec option "recall"); [tauto|]. by eexists.
  - intros e He. case_bool_decide; [congruence|].
    destruct (String.eqb option "accuracy"); [discriminate|].
    destruct (String.eqb option "precision");
      [destruct (_ =? 0); discriminate|].
    destruct (String.eqb option "recall");
      [destruct (_ =? 0); discriminate|]. congruence.
Qed.

Lemma eval_info_sentinel_and_errors_witness :
  _eval_info [0; 0; 0] [1; 0; 1] "precision" = Ok (-1)%Q.
Proof.
  refine (proj1 (eval_info_sentinel_and_errors [0; 0; 0] [1; 0; 1] "precision" _)
            _ _ _ _);
    [left; reflexivity | discriminate | discriminate | reflexivity | reflexivity].
Defined.

(** C10 as stated fails when the two arrays cannot be broadcast together:
    both are non-empty, the option is 'precision' and [pred] sums to 0, yet
    the call raises ValueError (from [pred & truth]) instead of returning
    -1. *)
Lemma eval_info_raises_on_shape_mismatch :
  _eval_info [0; 0; 0] [1; 0] "precision" = Raise ValueError
  ∧ [0; 0; 0] ≠ ([] : list Z) ∧ [1; 0] ≠ ([] : list Z)
  ∧ "precision"%string ∈ eval_options ∧ np.sum [0; 0; 0] = 0.
Proof.
  split; [vm_compute; reflexivity|].
  split; [discriminate|]. split; [discriminate|].
  split; [|reflexivity]. unfold eval_options. set_solver.
Qed.

(** *** Reasoning about runs *)

Section Ensures.

Context {World : Type}.

Local Abbreviation ensures := (ensures (World := World)).

Lemma bind_Ok {A B} (m : M World A) (k : A → M World B) s s' b :
  bind m k s = Some (s', Ok b) →
  ∃ s1 a, m s = Some (s1, Ok a) ∧ k a s1 = Some (s', Ok b).
Proof.
  unfold bind. destruct (m s) as [[s1 [a|e]]|]; [eauto|discriminate..].
Qed.

Lemma bind_run {A B} (m : M World A) (k : A → M World B) s s1 a :
  m s = Some (s1, Ok a) → bind m k s = k a s1.
Proof. intros H. unfold bind. by rewrite H. Qed.

Lemma ensures_ret {A} (a : A) (Q : A → Prop) : Q a → ensures (ret a) Q.
Proof. intros H s s' a' [= _ <-]. done. Qed.

Lemma ensures_raise {A} e (Q : A → Prop) : ensures (raise e) Q.
Proof. intros s s' a [=]. Qed.

Lemma ensures_stuck {A} (Q : A → Prop) : ensures stuck Q.
Proof. intros s s' a [=]. Qed.

Lemma ensures_lift {A} (r : result A) (Q : A → Prop) :
  (∀ a, r = Ok a → Q a) → ensures (lift r) Q.
Proof. intros H s s' a [= _ ->]. auto. Qed.

Lemma ensures_bind {A B} (m : M World A) (k : A → M World B) P (Q : B → Prop) :
  ensures m P → (∀ a, P a → ensures (k a) Q) → ensures (bind m k) Q.
Proof.
  intros Hm Hk s s' b (s1 & a & H1 & H2)%bind_Ok. eapply Hk; eauto.
Qed.

Lemma ensures_true {A} (m : M World A) : ensures m (λ _, True).
Proof. done. Qed.

(** The second half of a bind, whatever the first half returns. *)
Lemma ensures_then {A B} (m : M World A) (k : A → M World B) (Q : B → Prop) :
  (∀ a, ensures (k a) Q) → ensures (bind m k) Q.
Proof. intros Hk. eapply ensures_bind; [apply ensures_true | auto]. Qed.

Lemma ensures_weaken {A} (m : M World A) (P Q : A → Prop) :
  ensures m P → (∀ a, P a → Q a) → ensures m Q.
Proof. intros Hm HPQ s s' a H. eauto. Qed.

(** A bind whose first half never returns. *)
Lemma ensures_never {A B} (m : M World A) (k : A → M World B) (Q : B → Prop) :
  ensures m (λ _, False) → ensures (bind m k) Q.
Proof. intros Hm. eapply ensures_bind; [exact Hm | intros ? []]. Qed.

Lemma ensures_foldM {A B} (f : B → A → M World B) (I : B → Prop) l b :
  I b → (∀ b x, I b → ensures (f b x) I) → ensures (foldM f b l) I.
Proof.
  intros Hb Hf. revert b Hb. induction l as [|x l IH]; intros b Hb; cbn [foldM].
  - by apply ensures_ret.
  - eapply ensures_bind; [by apply Hf | auto].
Qed.

End Ensures.

(** *** [_evaluate] *)

(** C5 (the code departs from the claim).  One recorded sample, produced by
    FGSM and misclassified by the model: the attack subset is not empty and
    every attack in it succeeded, so the claimed rate is 1; the code reports
    None, because it tests [temp.any()] where the size of the subset was
    meant.  This holds for every collaborator when only the attack success
    rate is asked for, and in the report of [eval_metrics='auto'] as well. *)
Theorem attack_success_rate_None_when_all_attacks_succeed :
  (∀ {World : Type} {C : Collaborators World} (s : state World),
     _evaluate Example.fooled (PList [PStr "attack_success_rate"]) s
     = Some (s, Ok {[ "Attack_success_rate"%string := PNone ]}))
  ∧ match _evaluate (C := Example.toy) Example.fooled (PStr "auto")
            (Example.start []) with
    | Some (_, Ok report) =>
        report !! "Attack_success_rate"%string = Some PNone
        ∧ report !! "Accuracy"%string = Some (PInt 0)
    | _ => False
    end.
Proof. split; [reflexivity | vm_compute; done]. Qed.

Lemma wanted_auto (name : string) : wanted (PStr "auto") name = Ok true.
Proof. reflexivity. Qed.

(** Inversion of a run that returned: splits binds, and turns the steps
    that cannot fail into equations. *)
Ltac inv_run :=
  repeat match goal with
  | H : bind _ _ _ = Some (_, Ok _) |- _ =>
      apply bind_Ok in H; destruct H as (? & ? & ? & H)
  | H : lift _ _ = Some _ |- _ =>
      unfold lift in H; rewrite ?wanted_auto in H; simplify_eq H; clear H; intros
  | H : ret _ _ = Some _ |- _ => unfold ret in H; simplify_eq H; clear H; intros
  | H : read _ _ = Some _ |- _ => unfold read in H; simplify_eq H; clear H; intros
  | H : raise _ _ = Some (_, Ok _) |- _ => discriminate H
  | H : Ok _ = Ok _ |- _ => simplify_eq H; clear H; intros
  | _ => progress subst
  | H : _ = Some _ |- _ => progress cbn beta iota in H
  | H : (if ?b then _ else _) _ = Some _ |- _ => is_var b; destruct b
  end.

Lemma evaluate_auto_keys {World : Type} {C : Collaborators World} (out : outputs) :
  ensures (_evaluate out (PStr "auto")) (λ report, dom report = report_keys).
Proof.
  unfold _evaluate. intros s s' report H. inv_run.
  rewrite !dom_insert_L, dom_empty_L. unfold report_keys. set_solver.
Qed.

(** *** The four lists of [fuzzing] *)

Lemma record_mutant_same_lengths items acc :
  same_lengths acc.1 → same_lengths (fold_left record_mutant items acc).1.
Proof.
  revert acc. induction items as [|[[[mutate cov] pred] strategy] items IH];
    intros [out seeds] Hout; [done|].
  cbn [fold_left]. apply IH. unfold same_lengths in *. cbn in *.
  rewrite !length_app. cbn. lia.
Qed.

Section FuzzLoop.

Context {World : Type} {C : Collaborators World}.

Lemma fuzz_loop_same_lengths budget mutates mutate_config coverage_metric
    mutate_num_per_seed seed initial_seeds out :
  same_lengths out →
  ensures (fuzz_loop budget mutates mutate_config coverage_metric
             mutate_num_per_seed seed initial_seeds out) same_lengths.
Proof.
  revert seed initial_seeds out.
  induction budget as [|budget IH]; intros seed initial_seeds out Hout.
  { by apply ensures_ret. }
  destruct initial_seeds as [|seed1 queue]; [by apply ensures_ret|].
  cbn [fuzz_loop].
  apply ensures_then; intros [mutate_samples mutate_strategies].
  apply ensures_then; intros [coverages predicts].
  pose proof (record_mutant_same_lengths
    (zip (zip (zip mutate_samples (_coverage_gains coverages)) predicts)
         mutate_strategies) (out, seed1 :: queue) Hout) as Hrec.
  destruct (fold_left record_mutant _ _) as [out' initial_seeds'].
  apply ensures_then; intros [seed' initial_seeds'']. by apply IH.
Qed.

(** C7.  When [fuzzing] returns, [fuzz_samples], [true_labels],
    [fuzz_preds] and [fuzz_strategies] have the same length. *)
Theorem fuzzing_lists_same_length mutate_config initial_seeds coverage_metric
    eval_metrics max_iters mutate_num_per_seed (s s' : state World) out report :
  fuzzing mutate_config initial_seeds coverage_metric eval_metrics max_iters
    mutate_num_per_seed s = Some (s', Ok (out, report)) →
  length (fuzz_samples out) = length (true_labels out)
  ∧ length (true_labels out) = length (fuzz_preds out)
  ∧ length (fuzz_preds out) = length (fuzz_strategies out).
Proof.
  intros Hrun.
  enough (ensures (fuzzing mutate_config initial_seeds coverage_metric
            eval_metrics max_iters mutate_num_per_seed) (λ r, same_lengths r.1))
    as Hens by exact (Hens _ _ _ Hrun).
  unfold fuzzing.
  do 9 (apply ensures_then; intros ?).
  apply ensures_then; intros [seed queue].
  eapply ensures_bind.
  { apply fuzz_loop_same_lengths. unfold same_lengths. done. }
  intros out' Hout'. apply ensures_then; intros r. by apply ensures_ret.
Qed.

End FuzzLoop.

Lemma fuzzing_lists_same_length_witness :
  length (fuzz_samples Example.toy_outputs) = length (true_labels Example.toy_outputs)
  ∧ length (true_labels Example.toy_outputs) = length (fuzz_preds Example.toy_outputs)
  ∧ length (fuzz_preds Example.toy_outputs)
    = length (fuzz_strategies Example.toy_outputs).
Proof.
  apply (fuzzing_lists_same_length (C := Example.toy)
           Example.contrast_config Example.two_seeds "KMNC" (PStr "auto") 5 3
           (Example.start (repeat 0%nat 40)) Example.toy_final
           Example.toy_outputs (Some Example.toy_report)).
  vm_compute. reflexivity.
Defined.

(** *** The report of a run with [eval_metrics='auto'] *)

(** C8.  When [fuzzing] is called with [eval_metrics='auto'] and returns,
    the report is a dictionary whose keys are exactly Accuracy,
    Attack_success_rate, Neural_coverage_KMNC, Neural_coverage_NBC and
    Neural_coverage_SNAC. *)
Theorem fuzzing_auto_report_keys {World : Type} {C : Collaborators World}
    mutate_config initial_seeds coverage_metric max_iters mutate_num_per_seed
    (s s' : state World) out metrics_report :
  fuzzing mutate_config initial_seeds coverage_metric (PStr "auto") max_iters
    mutate_num_per_seed s = Some (s', Ok (out, metrics_report)) →
  ∃ report, metrics_report = Some report ∧ dom report = report_keys
    ∧ ∀ key, key ∈ report_keys → is_Some (report !! key).
Proof.
  intros Hrun.
  enough (ensures (fuzzing mutate_config initial_seeds coverage_metric
            (PStr "auto") max_iters mutate_num_per_seed)
            (λ r, ∃ report, r.2 = Some report ∧ dom report = report_keys))
    as Hens.
  { destruct (Hens _ _ _ Hrun) as (report & Hrep & Hdom). cbn in Hrep.
    subst metrics_report. exists report.
    split; [done|]. split; [done|]. intros key. rewrite <- Hdom.
    apply elem_of_dom. }
  unfold fuzzing.
  change (_check_eval_metrics (PStr "auto")) with (Ok (PStr "auto")).
  eapply (ensures_bind _ _ (λ a, a = PStr "auto"));
    [apply ensures_lift; intros a [= <-]; reflexivity|].
  intros eval_metrics_ ->.
  do 8 (apply ensures_then; intros ?).
  apply ensures_then; intros [seed queue].
  apply ensures_then; intros out'.
  eapply (ensures_bind _ _
            (λ r, ∃ report, r = Some report ∧ dom report = report_keys)).
  { eapply ensures_bind; [apply evaluate_auto_keys|].
    intros report Hdom. apply ensures_ret. eauto. }
  intros r (report & -> & Hdom). apply ensures_ret. eauto.
Qed.

Lemma fuzzing_auto_report_keys_witness :
  ∃ report, Some Example.toy_report = Some report ∧ dom report = report_keys
    ∧ ∀ key, key ∈ report_keys → is_Some (report !! key).
Proof.
  apply (fuzzing_auto_report_keys (C := Example.toy)
           Example.contrast_config Example.two_seeds "KMNC" 5 3
           (Example.start (repeat 0%nat 40)) Example.toy_final
           Example.toy_outputs (Some Example.toy_report)).
  vm_compute. reflexivity.
Defined.

(** *** A run on a single seed *)

Section SingleSeed.

Context {World : Type} {C : Collaborators World}.

Lemma select_next_length {A} (initial_seeds : list A) :
  ensures (World := World) (_select_next initial_seeds)
    (λ r, length r.2 = (length initial_seeds - 1)%nat).
Proof.
  unfold _select_next. apply ensures_then; intros seed_num.
  destruct (initial_seeds !! seed_num) as [seed|] eqn:Hseed;
    [|apply ensures_raise].
  apply ensures_ret. cbn. apply length_delete. eauto.
Qed.

Lemma fuzz_loop_empty_queue budget mutates mutate_config coverage_metric
    mutate_num_per_seed seed out :
  fuzz_loop (World := World) budget mutates mutate_config coverage_metric
    mutate_num_per_seed seed [] out = ret out.
Proof. by destruct budget. Qed.

Lemma check_eval_metrics_not_None eval_metrics eval_metrics_ :
  _check_eval_metrics eval_metrics = Ok eval_metrics_ → eval_metrics_ ≠ PNone.
Proof.
  destruct eval_metrics; cbn; try discriminate.
  - destruct (String.eqb s "auto"); intros [= <-]; discriminate.
  - destruct (forallb _ _); intros [= <-]; discriminate.
  - destruct (forallb _ _); intros [= <-]; discriminate.
Qed.

Lemma evaluate_no_outputs metrics :
  ensures (World := World) (_evaluate no_outputs metrics) (λ _, False).
Proof.
  unfold _evaluate. apply ensures_never, ensures_lift. discriminate.
Qed.

(** With one initial seed the loop is never entered: the only seed is
    taken out of the queue before the test [while initial_seeds], nothing
    is mutated, and [_evaluate] fails on the empty lists. *)
Lemma fuzzing_single_seed mutate_config seed0 coverage_metric eval_metrics
    max_iters mutate_num_per_seed :
  ensures (World := World)
    (fuzzing mutate_config [seed0] coverage_metric eval_metrics max_iters
       mutate_num_per_seed) (λ _, False).
Proof.
  unfold fuzzing.
  eapply ensures_bind.
  { apply ensures_lift. intros a Ha. exact (check_eval_metrics_not_None _ _ Ha). }
  intros eval_metrics_ Hnone.
  do 7 (apply ensures_then; intros ?).
  eapply (ensures_bind _ _ (λ seeds, length seeds = 1%nat)).
  { intros s s' seeds H. cbn [foldM] in H. inv_run. done. }
  intros seeds Hlen.
  eapply ensures_bind; [apply select_next_length|].
  intros [seed queue] Hqueue. cbn in Hqueue. rewrite Hlen in Hqueue.
  destruct queue; [|discriminate].
  rewrite fuzz_loop_empty_queue.
  eapply (ensures_bind _ _ (λ out, out = no_outputs));
    [by apply ensures_ret|]. intros out ->.
  apply ensures_never.
  destruct eval_metrics_; try done; apply ensures_never, evaluate_no_outputs.
Qed.

End SingleSeed.

(** C3 (the code departs from the claim).  No run on exactly one seed
    returns: it runs out of random choices or ends in an exception, whatever
    the configuration and the collaborators.  On the input of the claim (one
    32x32 image with a one-hot label of length 10, one Contrast transform with
    factor choices [1, 1.5], [max_iters=5], [mutate_num_per_seed=3]) the run
    takes one random choice (the seed), mutates nothing and ends in
    numpy's AxisError, raised by [np.argmax(true_labels, axis=1)] on the
    empty list. *)
Theorem single_seed_run_raises :
  (∀ {World : Type} {C : Collaborators World} mutate_config seed0
     coverage_metric eval_metrics max_iters mutate_num_per_seed (s : state World),
     match fuzzing mutate_config [seed0] coverage_metric eval_metrics max_iters
             mutate_num_per_seed s with
     | Some (_, Ok _) => False
     | _ => True
     end)
  ∧ fuzzing (C := Example.toy) Example.contrast_config
      [[Example.image32; Example.label10]] "KMNC" (PStr "auto") 5 3
      (Example.start [0; 1]%nat)
    = Some (Example.start [1%nat], Raise AxisError).
Proof.
  split; [|vm_compute; reflexivity].
  intros World C mutate_config seed0 coverage_metric eval_metrics max_iters
    mutate_num_per_seed s.
  destruct (fuzzing _ _ _ _ _ _ s) as [[s' [v|e]]|] eqn:Hrun; [|done..].
  exact (fuzzing_single_seed _ _ _ _ _ _ _ _ _ Hrun).
Qed.

(** *** Configurations without a pixel-value transform *)

Lemma rbind_Ok {A B} (r : result A) (k : A → result B) b :
  rbind r k = Ok b → ∃ a, r = Ok a ∧ k a = Ok b.
Proof. destruct r; cbn; [eauto | discriminate]. Qed.

Lemma fold_left_rbind_Raise {A B} (f : B → A → result B) l e :
  fold_left (λ acc x, rbind acc (λ h, f h x)) l (Raise e) = Raise e.
Proof. induction l; cbn; auto. Qed.

Section ConfigCheck.

Context {World : Type} {C : Collaborators World}.

Lemma check_config_no_pixel config :
  no_pixel_method config → check_config false config ≠ Ok true.
Proof.
  intros Hno H. unfold check_config in H.
  apply rbind_Ok in H as (_ & _ & H).
  apply rbind_Ok in H as (ks & _ & H).
  destruct (negb _); [discriminate|].
  apply rbind_Ok in H as (method & Hmethod & H).
  apply rbind_Ok in H as (params & _ & H).
  destruct (negb _); [discriminate|].
  rewrite (Hno _ Hmethod) in H.
  apply rbind_Ok in H as (_ & _ & H).
  apply rbind_Ok in H as (_ & _ & H). discriminate.
Qed.

Lemma check_configs_no_pixel mutate_config acc :
  Forall no_pixel_method mutate_config → acc ≠ Ok true →
  fold_left (λ acc config, rbind acc (λ h, check_config h config))
    mutate_config acc ≠ Ok true.
Proof.
  intros Hno. revert acc.
  induction Hno as [|config mutate_config Hconfig _ IH]; intros acc Hacc; [done|].
  cbn [fold_left]. apply IH.
  destruct acc as [[|]|e]; cbn; [done| |done].
  by apply check_config_no_pixel.
Qed.

Lemma check_mutate_config_no_pixel mutate_config :
  Forall no_pixel_method mutate_config →
  ∃ e, _check_mutate_config mutate_config = Raise e.
Proof.
  intros Hno. unfold _check_mutate_config.
  destruct (run_check _); cbn; [|eauto].
  pose proof (check_configs_no_pixel mutate_config (Ok false) Hno) as Hfold.
  destruct (fold_left _ _ _) as [[|]|e]; cbn; [|eauto..].
  by destruct Hfold.
Qed.

(** C4.  When no entry of [mutate_config] has a pixel-value transform as
    its method, [fuzzing] raises while it checks its arguments: the state
    is the one of the call, so no random choice was made (no seed
    selected, no strategy drawn) and no collaborator was touched. *)
Theorem fuzzing_rejects_config_without_pixel_transform
    mutate_config initial_seeds coverage_metric eval_metrics max_iters
    mutate_num_per_seed (s : state World) :
  Forall no_pixel_method mutate_config →
  ∃ e, fuzzing mutate_config initial_seeds coverage_metric eval_metrics
         max_iters mutate_num_per_seed s = Some (s, Raise e).
Proof.
  intros Hno. destruct (check_mutate_config_no_pixel _ Hno) as [e He].
  unfold fuzzing, bind, lift. rewrite He.
  destruct (_check_eval_metrics eval_metrics); [|eauto].
  destruct (negb _); cbn; [eauto|].
  destruct (run_check (check_int_positive "max_iters" _)); [|eauto].
  destruct (run_check (check_int_positive "mutate_num_per_seed" _)); eauto.
Qed.

End ConfigCheck.

Lemma fuzzing_rejects_config_without_pixel_transform_witness :
  ∃ e, fuzzing (C := Example.toy) Example.affine_attack_config Example.two_seeds
         "KMNC" (PStr "auto") 5 3 (Example.start (repeat 0%nat 40))
       = Some (Example.start (repeat 0%nat 40), Raise e).
Proof.
  apply (fuzzing_rejects_config_without_pixel_transform (C := Example.toy)).
  repeat constructor; intros method [= <-]; reflexivity.
Defined.

(** *** The pixel-only flag *)

Section PixelOnly.

Context {World : Type} {C : Collaborators World}.

Lemma reselect_pixel fuel mutate_config strategy :
  ensures (World := World) (reselect fuel mutate_config strategy)
    (λ chosen, ∃ m, getitem chosen "method" = Ok m ∧ is_pixel_method m).
Proof.
  revert strategy. induction fuel as [|fuel IH]; intros strategy;
    [apply ensures_stuck|].
  cbn [reselect].
  eapply (ensures_bind _ _ (λ m, getitem strategy "method" = Ok m));
    [by apply ensures_lift|].
  intros m Hm. destruct (str_in m _pixel_value_trans_list) eqn:Hpixel.
  - apply ensures_ret. eauto.
  - apply ensures_then. auto.
Qed.

Lemma choose_strategy_pixel only_pixel_trans mutate_config :
  ensures (World := World) (choose_strategy only_pixel_trans mutate_config)
    (λ chosen, truthy only_pixel_trans = true →
               ∃ m, getitem chosen "method" = Ok m ∧ is_pixel_method m).
Proof.
  unfold choose_strategy. apply ensures_then; intros strategy.
  destruct (truthy only_pixel_trans).
  - intros s s' chosen Hrun _. exact (reselect_pixel _ _ _ _ _ _ Hrun).
  - by apply ensures_ret.
Qed.

(** One attempt: a method that is not a pixel-value transform sets the
    flag of the candidate, a pixel-value transform hands the flag of the
    seed on, and on a flagged seed only pixel-value transforms are drawn. *)
Lemma mutate_once_flag seed mutates mutate_config (s s' : state World)
    child method :
  mutate_once seed mutates mutate_config s = Some (s', Ok (child, method)) →
  (¬ is_pixel_method method → only_pixel child = 1)
  ∧ (is_pixel_method method → only_pixel child = only_pixel seed)
  ∧ (truthy (only_pixel seed) = true → is_pixel_method method).
Proof.
  intros Hrun.
  enough (ensures (mutate_once seed mutates mutate_config)
    (λ r, (¬ is_pixel_method r.2 → only_pixel r.1 = 1)
          ∧ (is_pixel_method r.2 → only_pixel r.1 = only_pixel seed)
          ∧ (truthy (only_pixel seed) = true → is_pixel_method r.2)))
    as Hens by exact (Hens _ _ _ Hrun).
  clear. unfold mutate_once.
  eapply ensures_bind; [apply choose_strategy_pixel|].
  intros strategy Hchosen.
  eapply (ensures_bind _ _ (λ m, getitem strategy "method" = Ok m));
    [by apply ensures_lift|].
  intros method Hmethod. do 4 (apply ensures_then; intros ?).
  apply ensures_ret. unfold is_pixel_method in *. cbn.
  destruct (str_in method _pixel_value_trans_list) eqn:Hpixel; cbn.
  - done.
  - split; [done|]. split; [done|]. intros Hflag.
    destruct (Hchosen Hflag) as (m & Hm & Hpix). congruence.
Qed.

(** What [_metamorphic_mutate] returns descends from its seed: each sample
is the seed itself (the fallback) or the candidate of one attempt on it.
The loop of [fuzzing] puts nothing else into the queue. *)
Lemma mutate_loop_children n seed mutates mutate_config root methods
    mutate_samples mutate_strategies :
  lineage mutates mutate_config root methods seed →
  Forall (λ sample, ∃ ms, lineage mutates mutate_config root ms sample)
    mutate_samples →
  ensures (World := World)
    (mutate_loop n seed mutates mutate_config mutate_samples mutate_strategies)
    (λ r, Forall (λ sample, ∃ ms, lineage mutates mutate_config root ms sample)
            r.1).
Proof.
  intros Hseed. revert mutate_samples mutate_strategies.
  induction n as [|n IH]; intros mutate_samples mutate_strategies Hacc;
    cbn [mutate_loop]; [by apply ensures_ret|].
  intros s s' r (s1 & [sample method] & Hrun & Hrest)%bind_Ok.
  cbn beta iota in Hrest.
  apply bind_Ok in Hrest as (s2 & valid & _ & Hrest).
  destruct valid; [|exact (IH _ _ Hacc _ _ _ Hrest)].
  refine (IH _ _ _ _ _ _ Hrest).
  apply Forall_app. split; [done|]. constructor; [|done].
  eexists. eapply lineage_step; eauto.
Qed.

Lemma metamorphic_mutate_lineage seed mutates mutate_config mutate_num_per_seed
    root methods :
  lineage mutates mutate_config root methods seed →
  ensures (World := World)
    (_metamorphic_mutate seed mutates mutate_config mutate_num_per_seed)
    (λ r, Forall (λ sample, ∃ ms, lineage mutates mutate_config root ms sample)
            r.1).
Proof.
  intros Hseed. unfold _metamorphic_mutate.
  eapply ensures_bind; [by apply (mutate_loop_children _ _ _ _ root methods)|].
  intros [[|sample samples] strategies] Hall; apply ensures_ret; [|done].
  repeat constructor. eauto.
Qed.

(** Along every lineage of mutation attempts: once a method that is not a
    pixel-value transform (an affine transform or an attack) has produced a
    sample, the sample and all its descendants carry the pixel-only flag,
    every later method of the lineage is one of Contrast, Brightness, Blur,
    Noise, and so is the method of any further attempt on the descendant. *)
Lemma lineage_pixel_only mutates mutate_config root methods seed before method
    after :
  lineage mutates mutate_config root methods seed →
  methods = before ++ method :: after →
  ¬ is_pixel_method method →
  truthy (only_pixel seed) = true
  ∧ Forall is_pixel_method after
  ∧ ∀ (s s' : state World) child next,
      mutate_once seed mutates mutate_config s = Some (s', Ok (child, next)) →
      is_pixel_method next ∧ truthy (only_pixel child) = true.
Proof.
  intros Hlin Hsplit Hnon.
  enough (truthy (only_pixel seed) = true ∧ Forall is_pixel_method after)
    as [Hflag Hafter].
  { split; [done|]. split; [done|]. intros s s' child next Hrun.
    destruct (mutate_once_flag _ _ _ _ _ _ _ Hrun) as (_ & Hkeep & Hdraw).
    split; [auto|]. rewrite Hkeep; auto. }
  revert before after Hsplit.
  induction Hlin as [seed|root methods parent child last s s' Hlin IH Hrun];
    intros before after Hsplit.
  { by destruct before. }
  destruct (mutate_once_flag _ _ _ _ _ _ _ Hrun) as (Hset & Hkeep & Hdraw).
  destruct after as [|x after _] using rev_ind.
  - apply app_inj_tail in Hsplit as [_ ->]. rewrite Hset by done. done.
  - change (before ++ method :: after ++ [x])
      with (before ++ (method :: after) ++ [x]) in Hsplit.
    rewrite app_assoc in Hsplit. apply app_inj_tail in Hsplit as [Hsplit ->].
    destruct (IH _ _ Hsplit) as [Hflag Hafter].
    split; [rewrite Hkeep; auto|].
    apply Forall_app. split; [done|]. constructor; auto.
Qed.

End PixelOnly.


(** *** The fallback of [_metamorphic_mutate] *)

Section Fallback.

Context {World : Type} {C : Collaborators World}.

Lemma mutate_loop_all_invalid n seed mutates mutate_config
    mutate_samples mutate_strategies (s : state World) :
  attempts_all_invalid n seed mutates mutate_config s →
  ∃ s', mutate_loop n seed mutates mutate_config mutate_samples
          mutate_strategies s
        = Some (s', Ok (mutate_samples, mutate_strategies)).
Proof.
  revert s. induction n as [|n IH]; intros s Hall; cbn [mutate_loop].
  - by exists s.
  - destruct Hall as (s1 & mutate_sample & method & Hrun & Hinvalid & Hall).
    rewrite (bind_run _ _ _ _ _ Hrun). unfold bind at 1, lift.
    rewrite Hinvalid. by apply IH.
Qed.

Lemma mutate_loop_lengths n seed mutates mutate_config
    mutate_samples mutate_strategies :
  length mutate_samples = length mutate_strategies →
  ensures (World := World)
    (mutate_loop n seed mutates mutate_config mutate_samples mutate_strategies)
    (λ r, length r.1 = length r.2).
Proof.
  revert mutate_samples mutate_strategies.
  induction n as [|n IH]; intros mutate_samples mutate_strategies Hlen;
    cbn [mutate_loop]; [by apply ensures_ret|].
  apply ensures_then; intros [mutate_sample method].
  apply ensures_then; intros [|]; apply IH; [|done].
  rewrite !length_app. cbn. lia.
Qed.

(** C9.  When every one of the [mutate_num_per_seed] attempts fails the
    validity check, [_metamorphic_mutate] returns the seed itself, unchanged,
    as its only sample, with the strategy None; and whenever it returns,
    its two lists are non-empty and of one length. *)
Theorem metamorphic_mutate_falls_back_to_seed seed mutates mutate_config
    mutate_num_per_seed :
  (∀ s : state World,
     attempts_all_invalid (Z.to_nat mutate_num_per_seed) seed mutates
       mutate_config s →
     ∃ s', _metamorphic_mutate seed mutates mutate_config mutate_num_per_seed s
           = Some (s', Ok ([seed], [PNone])))
  ∧ (∀ (s s' : state World) mutate_samples mutate_strategies,
       _metamorphic_mutate seed mutates mutate_config mutate_num_per_seed s
         = Some (s', Ok (mutate_samples, mutate_strategies)) →
       mutate_samples ≠ []
       ∧ length mutate_samples = length mutate_strategies).
Proof.
  split.
  - intros s Hall. unfold _metamorphic_mutate.
    destruct (mutate_loop_all_invalid _ _ _ _ [] [] _ Hall) as [s' Hloop].
    rewrite (bind_run _ _ _ _ _ Hloop). by exists s'.
  - intros s s' mutate_samples mutate_strategies Hrun.
    enough (ensures
      (_metamorphic_mutate seed mutates mutate_config mutate_num_per_seed)
      (λ r, r.1 ≠ [] ∧ length r.1 = length r.2)) as Hens
      by exact (Hens _ _ _ Hrun).
    clear. unfold _metamorphic_mutate.
    eapply ensures_bind; [by apply mutate_loop_lengths|].
    intros [[|sample samples] strategies] Hlen; by apply ensures_ret.
Qed.

End Fallback.

Lemma metamorphic_mutate_falls_back_to_seed_witness :
  ∃ s', _metamorphic_mutate (C := Example.toy) Example.seed_a {[ "Noise"%string ]}
          Example.noise_config 3 (Example.start [0; 0; 0; 7]%nat)
        = Some (s', Ok ([Example.seed_a], [PNone])).
Proof.
  apply (metamorphic_mutate_falls_back_to_seed (C := Example.toy)).
  cbn [Z.to_nat Pos.to_nat Pos.iter_op Init.Nat.add attempts_all_invalid].
  exists (Example.start [0; 0; 7]%nat),
    {| img := Example.shift 300 Example.image4; lab := [1; 0]%Q; only_pixel := 0 |},
    (PStr "Noise").
  split; [vm_compute; reflexivity|]. split; [vm_compute; reflexivity|].
  exists (Example.start [0; 7]%nat),
    {| img := Example.shift 300 Example.image4; lab := [1; 0]%Q; only_pixel := 0 |},
    (PStr "Noise").
  split; [vm_compute; reflexivity|]. split; [vm_compute; reflexivity|].
  exists (Example.start [7]%nat),
    {| img := Example.shift 300 Example.image4; lab := [1; 0]%Q; only_pixel := 0 |},
    (PStr "Noise").
  split; [vm_compute; reflexivity|]. split; [vm_compute; reflexivity|].
  exact I.
Defined.

(** The strategy None reaches the public output: in a run whose mutations
    are all invalid, every entry of [fuzz_strategies] is None. *)
Lemma fuzz_strategies_may_hold_None :
  match Example.noise_run with
  | Some (_, Ok (out, _)) =>
      fuzz_strategies out = [PNone; PNone; PNone; PNone; PNone]
  | _ => False
  end.
Proof. vm_compute. reflexivity. Qed.


(** ** Further properties of the code *)

(** *** [_coverage_gains]: the sign of the gains *)

Lemma gains_nonneg (p : Q) (coverages : list Q) :
  Sorted Qle (p :: coverages) →
  Forall (λ gain, 0 <= gain)%Q
    (zip_with Qminus coverages (p :: removelast coverages)).
Proof.
  revert p. induction coverages as [|x [|y rest] IH]; intros p Hsorted;
    [constructor| |].
  - apply Sorted_inv in Hsorted as [_ Hp%HdRel_inv].
    repeat constructor. lra.
  - apply Sorted_inv in Hsorted as [Hrest Hp%HdRel_inv].
    change (removelast (x :: y :: rest)) with (x :: removelast (y :: rest)).
    cbn [zip_with]. constructor; [lra|]. by apply IH.
Qed.

(** X2.  When the coverages never decrease (and start at 0 or above), no
    gain is negative. *)
Theorem coverage_gains_nonnegative (coverages : list Q) :
  Sorted Qle (0%Q :: coverages) →
  Forall (λ gain, 0 <= gain)%Q (_coverage_gains coverages).
Proof. apply gains_nonneg. Qed.

Lemma coverage_gains_nonnegative_witness :
  Forall (λ gain, 0 <= gain)%Q (_coverage_gains [1 # 4; 1 # 2; 1 # 2]).
Proof.
  apply coverage_gains_nonnegative.
  repeat constructor; discriminate.
Defined.

(** *** [_is_trans_valid]: unchanged samples, bounds and errors *)

Lemma fold_max_ge (d : list Q) (m : Q) :
  (m <= fold_left (λ m y, Qmax m (Qabs y)) d m)%Q.
Proof.
  revert m. induction d as [|y d IH]; intros m; cbn; [apply Qle_refl|].
  eapply Qle_trans; [apply Q.le_max_l | apply IH].
Qed.

Lemma fold_max_elem (d : list Q) (m x : Q) :
  x ∈ d → (Qabs x <= fold_left (λ m y, Qmax m (Qabs y)) d m)%Q.
Proof.
  revert m. induction d as [|y d IH]; intros m Hx; [by apply elem_of_nil in Hx|].
  apply elem_of_cons in Hx as [->|Hx]; cbn; [|by apply IH].
  eapply Qle_trans; [apply Q.le_max_r | apply fold_max_ge].
Qed.

Lemma fold_max_le (d : list Q) (m b : Q) :
  (m <= b)%Q → Forall (λ y, Qabs y <= b)%Q d →
  (fold_left (λ m y, Qmax m (Qabs y)) d m <= b)%Q.
Proof.
  intros Hm Hd. revert m Hm. induction Hd as [|y d Hy _ IH]; intros m Hm; cbn;
    [done|].
  apply IH. by apply Q.max_lub.
Qed.

Lemma norm_inf_elem (d : list Q) (linf x : Q) :
  np.norm_inf d = Ok linf → x ∈ d → (Qabs x <= linf)%Q.
Proof.
  destruct d as [|y d]; [discriminate|]. intros [= <-] Hx.
  apply elem_of_cons in Hx as [->|Hx]; [apply fold_max_ge | by apply fold_max_elem].
Qed.

Lemma norm_l0_unchanged (d : list Q) :
  Forall (λ x, x == 0)%Q d → np.norm_l0 d = 0%Q.
Proof.
  intros Hd. unfold np.norm_l0.
  replace (filter _ d) with (@nil Q); [done|].
  induction Hd as [|x d Hx _ IH]; [done|].
  rewrite filter_cons_False; [done|].
  rewrite (Qeq_eq_bool _ _ Hx). cbn. auto.
Qed.

(** X3.  A sample that equals its seed is a valid mutation, whatever the
    (non-empty) image. *)
Theorem is_trans_valid_unchanged (seed : array) :
  seed ≠ [] → _is_trans_valid seed seed = Ok true.
Proof.
  intros Hne. unfold _is_trans_valid, np.subtract.
  rewrite broadcast_same_length by done. cbn [rbind].
  assert (Hzero : Forall (λ x, x == 0)%Q (zip_with Qminus seed seed)).
  { clear. induction seed as [|x seed IH]; constructor; [ring | done]. }
  rewrite (norm_l0_unchanged _ Hzero).
  destruct (np.norm_inf _) as [linf|e] eqn:Hinf.
  - cbn [rbind].
    assert (Hle : (linf <= 0)%Q).
    { destruct (zip_with Qminus seed seed) as [|y d]; [discriminate|].
      injection Hinf as <-. apply Forall_cons in Hzero as [Hy Hd].
      apply fold_max_le.
      - rewrite Hy. discriminate.
      - eapply Forall_impl; [exact Hd|]. intros z Hz. cbn in Hz. rewrite Hz.
        discriminate. }
    assert (Hfew : Qlt_bool
      (pixels_change_rate * inject_Z (Z.of_nat (length (zip_with Qminus seed seed))))
      0 = false).
    { apply not_true_is_false. rewrite Qlt_bool_iff. intros Hlt.
      assert (0 <= inject_Z (Z.of_nat (length (zip_with Qminus seed seed))))%Q
        by (rewrite <- Zle_Qle with (x := 0%Z); lia).
      unfold pixels_change_rate in Hlt. lra. }
    rewrite Hfew. f_equal. apply Qlt_bool_iff.
    unfold pixel_value_change_rate. lra.
  - destruct seed; [done | discriminate].
Qed.

Lemma is_trans_valid_unchanged_witness :
  _is_trans_valid Example.image4 Example.image4 = Ok true.
Proof. apply is_trans_valid_unchanged. discriminate. Defined.

(** X4.  In a mutation that [_is_trans_valid] accepts, no pixel differs
    from the seed by 256 or more. *)
Theorem is_trans_valid_bounds_every_pixel (seed mutate_sample : array) i x y :
  _is_trans_valid seed mutate_sample = Ok true →
  length seed = length mutate_sample →
  seed !! i = Some x → mutate_sample !! i = Some y →
  (Qabs (x - y) < 256)%Q.
Proof.
  intros Hvalid Hlen Hx Hy. unfold _is_trans_valid, np.subtract in Hvalid.
  rewrite broadcast_same_length in Hvalid by done. cbn [rbind] in Hvalid.
  destruct (np.norm_inf _) as [linf|e] eqn:Hinf; [|discriminate].
  cbn [rbind] in Hvalid.
  assert (Hpixel : (Qabs (x - y) <= linf)%Q).
  { apply (norm_inf_elem _ _ _ Hinf). apply list_elem_of_lookup. exists i.
    apply lookup_zip_with_Some. eauto. }
  assert (Hlinf : (linf < 256)%Q).
  { destruct (Qlt_bool _ (np.norm_l0 _)); injection Hvalid as Hvalid;
      apply Qlt_bool_iff in Hvalid; [done|].
    unfold pixel_value_change_rate in Hvalid. lra. }
  lra.
Qed.

Lemma is_trans_valid_bounds_every_pixel_witness :
  (Qabs (0 - 1) < 256)%Q.
Proof.
  apply (is_trans_valid_bounds_every_pixel Example.image4
           (Example.shift 1 Example.image4) 2 0 1)%Q;
    [vm_compute; reflexivity | reflexivity | reflexivity | reflexivity].
Defined.

Lemma broadcast_result {A B} (f : A → A → B) (a b : list A) :
  match np.broadcast f a b with
  | Some d => np.broadcastable a b ∧ (d = [] ↔ a = [] ∨ b = [])
  | None => ¬ np.broadcastable a b
  end.
Proof.
  unfold np.broadcast, np.broadcastable.
  destruct (decide (length a = length b)) as [Hlen|Hlen].
  - split; [by left|].
    destruct a, b; cbn in *; try discriminate; intuition discriminate.
  - destruct a as [|x [|x' a]], b as [|y [|y' b]]; cbn in *;
      intuition (try discriminate; try lia).
Qed.

(** X5.  [_is_trans_valid] raises exactly when the two images cannot be
    combined elementwise or one of them is empty, and what it raises is
    ValueError; on all other inputs it answers True or False. *)
Theorem is_trans_valid_errors (seed mutate_sample : array) :
  ((∃ e, _is_trans_valid seed mutate_sample = Raise e)
   ↔ ¬ np.broadcastable seed mutate_sample ∨ seed = [] ∨ mutate_sample = [])
  ∧ (∀ e, _is_trans_valid seed mutate_sample = Raise e → e = ValueError).
Proof.
  unfold _is_trans_valid, np.subtract.
  pose proof (broadcast_result Qminus seed mutate_sample) as Hb.
  destruct (np.broadcast Qminus seed mutate_sample) as [diff|]; cbn [rbind].
  - destruct Hb as [Hshape Hempty]. destruct diff as [|d diff]; cbn.
    + split; [|congruence]. split; [intros _; right; by apply Hempty | eauto].
    + split.
      * split.
        -- intros [e He]. by destruct (Qlt_bool _ _).
        -- intros [?|Hcase]; [done|]. apply Hempty in Hcase. discriminate.
      * intros e He. by destruct (Qlt_bool _ _).
  - split; [|congruence]. split; eauto.
Qed.

(** *** [_check_eval_metrics] *)

(** X6.  What [_check_eval_metrics] lets through is 'auto' or a list of
    names of available metrics, and checking its result again gives the same
    result. *)
Theorem check_eval_metrics_result (eval_metrics eval_metrics_ : pyval) :
  _check_eval_metrics eval_metrics = Ok eval_metrics_ →
  (eval_metrics_ = PStr "auto"
   ∨ ∃ l, eval_metrics_ = PList l
          ∧ (eval_metrics = PList l ∨ eval_metrics = PTuple l)
          ∧ Forall (λ elem, ∃ name, elem = PStr name ∧ name ∈ available_metrics) l)
  ∧ _check_eval_metrics eval_metrics_ = Ok eval_metrics_.
Proof.
  assert (Hall : ∀ l, forallb (λ elem, str_in elem available_metrics) l = true →
    Forall (λ elem, ∃ name, elem = PStr name ∧ name ∈ available_metrics) l).
  { intros l Hl. apply Forall_forall. intros elem Helem.
    rewrite forallb_forall in Hl. specialize (Hl elem).
    rewrite <- list_elem_of_In in Hl. specialize (Hl Helem).
    destruct elem; try discriminate. cbn in Hl. apply bool_decide_eq_true in Hl.
    eauto. }
  destruct eval_metrics; cbn; try discriminate.
  - destruct (String.eqb_spec s "auto"); intros [= <-]. split; [by left | done].
  - destruct (forallb _ l) eqn:Hl; intros [= <-]. cbn. rewrite Hl. eauto 10.
  - destruct (forallb _ l) eqn:Hl; intros [= <-]. cbn. rewrite Hl. eauto 10.
Qed.

Lemma check_eval_metrics_result_witness :
  (PList [PStr "kmnc"; PStr "accuracy"] = PStr "auto"
   ∨ ∃ l, PList [PStr "kmnc"; PStr "accuracy"] = PList l
          ∧ (PTuple [PStr "kmnc"; PStr "accuracy"] = PList l
             ∨ PTuple [PStr "kmnc"; PStr "accuracy"] = PTuple l)
          ∧ Forall (λ elem, ∃ name, elem = PStr name ∧ name ∈ available_metrics) l)
  ∧ _check_eval_metrics (PList [PStr "kmnc"; PStr "accuracy"])
    = Ok (PList [PStr "kmnc"; PStr "accuracy"]).
Proof.
  apply (check_eval_metrics_result (PTuple [PStr "kmnc"; PStr "accuracy"])).
  reflexivity.
Defined.

(** *** [_eval_info]: the range of the scores *)

Lemma sum_binary_nonneg (a : list Z) : binary a → 0 ≤ np.sum a.
Proof.
  unfold np.sum. induction 1 as [|z a Hz _ IH]; cbn [fold_right]; [done | lia].
Qed.

Lemma sum_land_binary (a b : list Z) :
  binary a → binary b →
  0 ≤ np.sum (zip_with Z.land a b)
  ∧ np.sum (zip_with Z.land a b) ≤ np.sum a
  ∧ np.sum (zip_with Z.land a b) ≤ np.sum b.
Proof.
  intros Ha. revert b. induction Ha as [|x a Hx Ha IH]; intros b Hb.
  { pose proof (sum_binary_nonneg b Hb). unfold np.sum in *. cbn. lia. }
  destruct Hb as [|y b Hy Hb].
  { pose proof (sum_binary_nonneg (x :: a) (Forall_cons_2 _ _ _ Hx Ha)).
    unfold np.sum in *. cbn in *. lia. }
  destruct (IH b Hb) as (? & ? & ?). unfold np.sum in *.
  cbn [zip_with fold_right].
  destruct Hx as [-> | ->], Hy as [-> | ->];
    rewrite ?Z.land_0_l, ?Z.land_0_r, ?Z.land_diag; lia.
Qed.

Lemma count_true_le (l : list bool) :
  (length (filter (λ x, x = true) l) ≤ length l)%nat.
Proof. apply length_filter. Qed.

Lemma unit_fraction (a b : Z) :
  0 ≤ a → a ≤ b → 0 < b → (0 <= inject_Z a / inject_Z b <= 1)%Q.
Proof.
  intros Ha Hab Hb.
  assert (0 < inject_Z b)%Q by (rewrite <- Zlt_Qlt with (x := 0%Z); lia).
  assert (0 <= inject_Z a)%Q by (rewrite <- Zle_Qle with (x := 0%Z); lia).
  assert (inject_Z a <= inject_Z b)%Q by (by rewrite <- Zle_Qle).
  split.
  - apply Qle_shift_div_l; [done | lra].
  - apply Qle_shift_div_r; [done | lra].
Qed.

(** X7.  For 0/1 predictions and labels of one (non-zero) length, every
    score of [_eval_info] is either the sentinel -1 or a fraction between 0
    and 1. *)
Theorem eval_info_range (pred truth : list Z) (option : string) :
  binary pred → binary truth → length pred = length truth → pred ≠ [] →
  option ∈ eval_options →
  ∃ score, _eval_info pred truth option = Ok score
           ∧ (score = (-1)%Q ∨ (0 <= score <= 1)%Q).
Proof.
  intros Hpred Htruth Hlen Hne Hoption.
  assert (Hsize : ¬ (length pred = 0%nat ∨ length truth = 0%nat)).
  { rewrite <- Hlen. destruct pred; [done | cbn; lia]. }
  unfold _eval_info, np.bitwise_and, np.count_equal.
  rewrite bool_decide_false by done.
  rewrite !broadcast_same_length by done. cbn [rbind].
  destruct (sum_land_binary pred truth Hpred Htruth) as (Hland & Hlp & Hlt).
  pose proof (sum_binary_nonneg _ Hpred). pose proof (sum_binary_nonneg _ Htruth).
  apply eval_options_cases in Hoption as [-> | [-> | ->]]; cbn.
  - eexists. split; [done|]. right. apply unit_fraction.
    + lia.
    + pose proof (count_true_le (zip_with Z.eqb pred truth)) as Hcount.
      rewrite length_zip_with in Hcount. lia.
    + destruct pred; [done | cbn; lia].
  - destruct (Z.eqb_spec (np.sum pred) 0); eexists; (split; [done|]); [by left|].
    right. apply unit_fraction; lia.
  - destruct (Z.eqb_spec (np.sum truth) 0); eexists; (split; [done|]); [by left|].
    right. apply unit_fraction; lia.
Qed.

Lemma eval_info_range_witness :
  ∃ score, _eval_info [1; 0; 1; 1] [1; 1; 0; 1] "recall" = Ok score
           ∧ (score = (-1)%Q ∨ (0 <= score <= 1)%Q).
Proof.
  apply eval_info_range.
  - repeat first [apply Forall_nil_2 | apply Forall_cons_2; [lia|]].
  - repeat first [apply Forall_nil_2 | apply Forall_cons_2; [lia|]].
  - reflexivity.
  - discriminate.
  - apply eval_options_cases. auto.
Defined.

Lemma sum_land_self (a : list Z) : np.sum (zip_with Z.land a a) = np.sum a.
Proof.
  unfold np.sum. induction a as [|x a IH]; cbn [zip_with fold_right]; [done|].
  by rewrite Z.land_diag, IH.
Qed.

Lemma count_equal_self (a : list Z) :
  np.count_equal a a = Z.of_nat (length a).
Proof.
  unfold np.count_equal. rewrite broadcast_same_length by done. f_equal.
  induction a as [|x a IH]; [done|]. cbn [zip_with].
  rewrite filter_cons_True by apply Z.eqb_refl. cbn. by rewrite IH.
Qed.

(** X8.  For 0/1 labels, a prediction that is the truth itself scores 1 in
    accuracy, precision and recall, provided some label is 1, that is, the
    labels do not sum to 0 (otherwise precision and recall are the sentinel
    -1). *)
Theorem eval_info_perfect_prediction (truth : list Z) (option : string) :
  binary truth → np.sum truth ≠ 0 → option ∈ eval_options →
  ∃ score, _eval_info truth truth option = Ok score ∧ (score == 1)%Q.
Proof.
  intros _ Hsum Hoption.
  assert (Hne : truth ≠ []) by (intros ->; done).
  assert (Hsize : ¬ (length truth = 0%nat ∨ length truth = 0%nat))
    by (destruct truth; [done | cbn; lia]).
  assert (Hunit : ∀ z, z ≠ 0 → (inject_Z z / inject_Z z == 1)%Q).
  { intros z Hz. apply Qmult_inv_r. intros H. apply Hz.
    unfold Qeq in H. cbn in H. lia. }
  unfold _eval_info, np.bitwise_and.
  rewrite bool_decide_false by done.
  rewrite broadcast_same_length by done. cbn [rbind].
  rewrite sum_land_self, count_equal_self.
  apply Z.eqb_neq in Hsum as Hsum'.
  apply eval_options_cases in Hoption as [-> | [-> | ->]]; cbn; rewrite ?Hsum';
    eexists; (split; [done|]); apply Hunit; [|done..].
  destruct truth; [done | cbn; lia].
Qed.

Lemma eval_info_perfect_prediction_witness :
  ∃ score, _eval_info [1; 0; 1] [1; 0; 1] "precision" = Ok score ∧ (score == 1)%Q.
Proof.
  apply eval_info_perfect_prediction.
  - repeat first [apply Forall_nil_2 | apply Forall_cons_2; [lia|]].
  - discriminate.
  - apply eval_options_cases. auto.
Defined.

(** *** [_select_next] *)

Lemma choice_run {World A} (seq : list A) (x0 : A) (r : nat) (t : list nat)
    (w : World) :
  seq ≠ [] →
  ∃ x, choice seq {| tape := r :: t; world := w |}
       = Some ({| tape := t; world := w |}, Ok x)
       ∧ seq !! (r mod length seq)%nat = Some x.
Proof.
  intros Hne. destruct seq as [|y seq]; [done|]. unfold choice. cbn [tape world].
  eexists. split; [done|].
  destruct (nth_lookup_or_length (y :: seq) (r mod length (y :: seq)) y)
    as [Hsome|Hlen]; [done|].
  pose proof (Nat.mod_upper_bound r (length (y :: seq))). cbn [length] in *. lia.
Qed.

(** X9.  On a non-empty queue [_select_next] takes one random choice and
    hands back one seed of the queue together with the queue without it:
    nothing is lost and nothing is duplicated. *)
Theorem select_next_takes_one_seed {World A} (initial_seeds : list A)
    (r : nat) (t : list nat) (w : World) :
  initial_seeds ≠ [] →
  ∃ seed rest,
    _select_next initial_seeds {| tape := r :: t; world := w |}
    = Some ({| tape := t; world := w |}, Ok (seed, rest))
    ∧ initial_seeds ≡ₚ seed :: rest.
Proof.
  intros Hne. unfold _select_next.
  destruct (choice_run (seq 0 (length initial_seeds)) 0%nat r t w)
    as (seed_num & Hrun & Hnum).
  { destruct initial_seeds; [done | discriminate]. }
  rewrite (bind_run _ _ _ _ _ Hrun).
  rewrite length_seq in Hnum. apply lookup_seq in Hnum as [Hnum Hlt].
  cbn [Nat.add] in Hnum. subst seed_num.
  destruct (lookup_lt_is_Some_2 initial_seeds _ Hlt) as [seed Hseed].
  rewrite Hseed. exists seed, (delete (r mod length initial_seeds)%nat initial_seeds).
  split; [done|]. by apply delete_Permutation.
Qed.

Lemma select_next_takes_one_seed_witness :
  ∃ seed rest,
    _select_next [10; 20; 30]%nat {| tape := [7; 1]%nat; world := tt |}
    = Some ({| tape := [1%nat]; world := tt |}, Ok (seed, rest))
    ∧ [10; 20; 30]%nat ≡ₚ seed :: rest.
Proof. apply select_next_takes_one_seed. discriminate. Defined.

(** *** [_check_mutate_config] and [_check_attack_params] *)

Lemma fold_checks_Ok {A} (f : A → result unit) (l : list A) (acc : result unit) :
  fold_left (λ acc x, rbind acc (λ _, f x)) l acc = Ok tt →
  acc = Ok tt ∧ Forall (λ x, f x = Ok tt) l.
Proof.
  revert acc. induction l as [|x l IH]; intros acc H; cbn in H.
  - split; [done | constructor].
  - apply IH in H as [Hacc Hl]. destruct acc as [[]|e]; [|discriminate].
    cbn in Hacc. split; [done|]. by constructor.
Qed.

Section ConfigAccepted.

Context {World : Type} {C : Collaborators World}.

(** An entry that [_check_mutate_config] accepts: a dictionary with the keys
    'method' and 'params' whose method is a supported strategy. *)
Lemma check_config_accepted has_pixel_trans config has_pixel_trans' :
  check_config has_pixel_trans config = Ok has_pixel_trans' →
  (∃ m params, getitem config "method" = Ok (PStr m) ∧ m ∈ _strategies
               ∧ getitem config "params" = Ok params
               ∧ (has_pixel_trans' = true →
                  has_pixel_trans = true ∨ m ∈ _pixel_value_trans_list)).
Proof.
  intros H. unfold check_config in H.
  apply rbind_Ok in H as (_ & _ & H).
  apply rbind_Ok in H as (ks & _ & H).
  destruct (negb _); [discriminate|].
  apply rbind_Ok in H as (method & Hmethod & H).
  apply rbind_Ok in H as (params & Hparams & H).
  destruct (negb (str_in method _strategies)) eqn:Hsupported; [discriminate|].
  apply negb_false_iff in Hsupported.
  apply rbind_Ok in H as (_ & _ & H).
  apply rbind_Ok in H as (_ & _ & H). injection H as <-.
  destruct method as [| | | |m| | | |]; try discriminate. cbn in Hsupported.
  apply bool_decide_eq_true in Hsupported.
  exists m, params. repeat split; try done.
  cbn. case_bool_decide; auto.
Qed.

Lemma check_configs_accepted mutate_config has_pixel_trans has_pixel_trans' :
  fold_left (λ acc config, rbind acc (λ h, check_config h config))
    mutate_config (Ok has_pixel_trans) = Ok has_pixel_trans' →
  Forall (λ config, ∃ m params,
            getitem config "method" = Ok (PStr m) ∧ m ∈ _strategies
            ∧ getitem config "params" = Ok params) mutate_config
  ∧ (has_pixel_trans' = true →
     has_pixel_trans = true
     ∨ Exists (λ config, ∃ m, getitem config "method" = Ok (PStr m)
                              ∧ m ∈ _pixel_value_trans_list) mutate_config).
Proof.
  revert has_pixel_trans.
  induction mutate_config as [|config mutate_config IH]; intros h H; cbn in H.
  - injection H as <-. split; [constructor | auto].
  - destruct (check_config h config) as [h1|e] eqn:Hconfig;
      [|by rewrite fold_left_rbind_Raise in H].
    apply check_config_accepted in Hconfig as (m & params & Hm & Hs & Hp & Hpix).
    apply IH in H as [Hall Hsome]. split; [constructor; eauto|].
    intros Htrue. destruct (Hsome Htrue) as [Hh1|Hex]; [|right; by constructor].
    destruct (Hpix Hh1) as [?|?]; [by left|]. right. constructor. eauto.
Qed.

(** X10.  A configuration that [_check_mutate_config] accepts comes back
    unchanged; each of its entries has a supported method and a 'params'
    entry, and at least one entry is a pixel-value transform. *)
Theorem check_mutate_config_accepted mutate_config checked :
  _check_mutate_config mutate_config = Ok checked →
  checked = mutate_config
  ∧ Forall (λ config, ∃ m params,
              getitem config "method" = Ok (PStr m) ∧ m ∈ _strategies
              ∧ getitem config "params" = Ok params) mutate_config
  ∧ Exists (λ config, ∃ m, getitem config "method" = Ok (PStr m)
                           ∧ m ∈ _pixel_value_trans_list) mutate_config.
Proof.
  intros H. unfold _check_mutate_config in H.
  apply rbind_Ok in H as (_ & _ & H).
  apply rbind_Ok in H as (h & Hfold & H).
  destruct h; [|discriminate]. injection H as <-.
  apply check_configs_accepted in Hfold as [Hall Hsome].
  split; [done|]. split; [done|]. by destruct Hsome.
Qed.




End ConfigAccepted.

Lemma check_mutate_config_accepted_witness :
  Example.attack_config = Example.attack_config
  ∧ Forall (λ config, ∃ m params,
              getitem config "method" = Ok (PStr m) ∧ m ∈ _strategies
              ∧ getitem config "params" = Ok params) Example.attack_config
  ∧ Exists (λ config, ∃ m, getitem config "method" = Ok (PStr m)
                           ∧ m ∈ _pixel_value_trans_list) Example.attack_config.
Proof.
  apply (check_mutate_config_accepted (C := Example.toy)). reflexivity.
Defined.



(** *** [_init_mutates] *)

Section Mutates.

Context {World : Type} {C : Collaborators World}.

Lemma init_mutates_from mutate_config (built : gset string) :
  ensures (World := World)
    (foldM (λ mutates mutate,
       let* method := lift (getitem mutate "method") in
       match method with
       | PStr m =>
           if bool_decide (m ∈ _strategies) then
             do* call ((if bool_decide (m ∈ _attacks_list)
                        then construct_attack else construct) m) in
             ret ({[ m ]} ∪ mutates)
           else raise KeyError
       | _ => raise KeyError
       end) built mutate_config)
    (λ mutates, ∀ m, m ∈ mutates ↔
       m ∈ built ∨ ∃ config, config ∈ mutate_config
                             ∧ getitem config "method" = Ok (PStr m)).
Proof.
  revert built. induction mutate_config as [|config mutate_config IH];
    intros built; cbn [foldM].
  - apply ensures_ret. intros m. split; [auto|].
    intros [?|(config & Hin & _)]; [done|]. by apply elem_of_nil in Hin.
  - eapply (ensures_bind _ _ (λ built', ∀ m, m ∈ built' ↔
      m ∈ built ∨ getitem config "method" = Ok (PStr m))).
    + eapply (ensures_bind _ _ (λ method, getitem config "method" = Ok method));
        [by apply ensures_lift|].
      intros method Hmethod. destruct method; try apply ensures_raise.
      case_bool_decide; [|apply ensures_raise].
      apply ensures_then; intros _. apply ensures_ret. intros m.
      rewrite elem_of_union, elem_of_singleton. split.
      * intros [->|?]; auto.
      * intros [?|Hm]; [auto|]. left. congruence.
    + intros built' Hbuilt'. eapply ensures_weaken; [apply IH|].
      intros mutates Hmutates m. cbn beta in Hmutates. rewrite Hmutates, Hbuilt'.
      split.
      * intros [[?|?]|(c & Hc & Hm)]; [auto| |].
        -- right. exists config. split; [apply elem_of_cons; auto | done].
        -- right. exists c. split; [apply elem_of_cons; auto | done].
      * intros [?|(c & Hc & Hm)]; [auto|].
        apply elem_of_cons in Hc as [->|Hc]; [auto|]. right. eauto.
Qed.

(** X13.  The mutators that [_init_mutates] builds are those of the methods
    of the configuration, no more and no fewer: a strategy drawn from the
    configuration always finds its mutator. *)
Theorem init_mutates_keys mutate_config (s s' : state World) mutates :
  _init_mutates mutate_config s = Some (s', Ok mutates) →
  ∀ m, m ∈ mutates ↔
    ∃ config, config ∈ mutate_config ∧ getitem config "method" = Ok (PStr m).
Proof.
  intros Hrun m.
  pose proof (init_mutates_from mutate_config ∅ _ _ _ Hrun m) as Hm.
  cbn beta in Hm. rewrite Hm. split; [|auto].
  intros [Hempty|?]; [|done]. by apply elem_of_empty in Hempty.
Qed.

End Mutates.

Lemma init_mutates_keys_witness :
  "FGSM"%string ∈ Example.both_mutates ↔
    ∃ config, config ∈ Example.attack_config
              ∧ getitem config "method" = Ok (PStr "FGSM").
Proof.
  apply (init_mutates_keys (C := Example.toy) Example.attack_config
           (Example.start []) (Example.start []) Example.both_mutates).
  vm_compute. reflexivity.
Defined.

(** *** What [_metamorphic_mutate] returns *)

Lemma ensures_choice {World A} (seq : list A) :
  ensures (World := World) (choice seq) (λ x, x ∈ seq).
Proof.
  intros s s' x. unfold choice. destruct seq as [|x0 seq]; [discriminate|].
  destruct (tape s) as [|r t]; [discriminate|]. intros [= _ <-].
  destruct (nth_lookup_or_length (x0 :: seq) (r mod length (x0 :: seq)) x0)
    as [Hsome|Hlen]; [by eapply list_elem_of_lookup_2|].
  pose proof (Nat.mod_upper_bound r (length (x0 :: seq))). cbn [length] in *. lia.
Qed.

Section Mutants.

Context {World : Type} {C : Collaborators World}.

Lemma reselect_from_config fuel mutate_config strategy :
  strategy ∈ mutate_config →
  ensures (World := World) (reselect fuel mutate_config strategy)
    (λ chosen, chosen ∈ mutate_config).
Proof.
  revert strategy. induction fuel as [|fuel IH]; intros strategy Hin;
    [apply ensures_stuck|].
  cbn [reselect]. apply ensures_then; intros method.
  destruct (str_in method _pixel_value_trans_list); [by apply ensures_ret|].
  eapply ensures_bind; [apply ensures_choice | auto].
Qed.

Lemma choose_strategy_from_config only_pixel_trans mutate_config :
  ensures (World := World) (choose_strategy only_pixel_trans mutate_config)
    (λ chosen, chosen ∈ mutate_config).
Proof.
  unfold choose_strategy. eapply ensures_bind; [apply ensures_choice|].
  intros strategy Hin. destruct (truthy only_pixel_trans).
  - intros s s' chosen Hrun. exact (reselect_from_config _ _ _ Hin _ _ _ Hrun).
  - by apply ensures_ret.
Qed.

(** One attempt keeps the label of the seed, and its method is the method
    of an entry of the configuration whose mutator exists. *)
Lemma mutate_once_result seed mutates mutate_config :
  ensures (World := World) (mutate_once seed mutates mutate_config)
    (λ r, lab r.1 = lab seed
          ∧ ∃ config m, config ∈ mutate_config
              ∧ getitem config "method" = Ok r.2 ∧ r.2 = PStr m ∧ m ∈ mutates).
Proof.
  unfold mutate_once.
  eapply ensures_bind; [apply choose_strategy_from_config|].
  intros strategy Hin.
  eapply (ensures_bind _ _ (λ method, getitem strategy "method" = Ok method));
    [by apply ensures_lift|].
  intros method Hmethod.
  eapply (ensures_bind _ _ (λ m, method = PStr m ∧ m ∈ mutates)).
  { destruct method; try apply ensures_raise.
    case_bool_decide; [by apply ensures_ret | apply ensures_raise]. }
  intros m [-> Hm]. do 3 (apply ensures_then; intros ?).
  apply ensures_ret. cbn. split; [done|]. by exists strategy, m.
Qed.

Lemma mutate_loop_records n seed mutates mutate_config
    mutate_samples mutate_strategies :
  Forall2 (recorded_mutant seed mutates mutate_config)
    mutate_samples mutate_strategies →
  ensures (World := World)
    (mutate_loop n seed mutates mutate_config mutate_samples mutate_strategies)
    (λ r, Forall2 (recorded_mutant seed mutates mutate_config) r.1 r.2
          ∧ (length r.1 ≤ length mutate_samples + n)%nat).
Proof.
  revert mutate_samples mutate_strategies.
  induction n as [|n IH]; intros mutate_samples mutate_strategies Hacc;
    cbn [mutate_loop].
  { apply ensures_ret. cbn. split; [done | lia]. }
  eapply ensures_bind; [apply mutate_once_result|].
  intros [mutate_sample method] [Hlab Hmethod].
  eapply (ensures_bind _ _
    (λ valid, _is_trans_valid (img seed) (img mutate_sample) = Ok valid));
    [by apply ensures_lift|].
  intros [|] Hvalid.
  - eapply ensures_weaken.
    + apply IH. apply Forall2_app; [done|]. by repeat constructor.
    + intros r [Hr Hlen]. split; [done|]. rewrite length_app in Hlen. cbn in Hlen.
      lia.
  - eapply ensures_weaken; [by apply IH|]. intros r [Hr Hlen]. split; [done | lia].
Qed.

Lemma metamorphic_mutate_records seed mutates mutate_config mutate_num_per_seed :
  ensures (World := World)
    (_metamorphic_mutate seed mutates mutate_config mutate_num_per_seed)
    (λ r, Forall2 (λ sample strategy,
             lab sample = lab seed
             ∧ ((sample = seed ∧ strategy = PNone)
                ∨ (_is_trans_valid (img seed) (img sample) = Ok true
                   ∧ ∃ config, config ∈ mutate_config
                               ∧ getitem config "method" = Ok strategy)))
            r.1 r.2).
Proof.
  unfold _metamorphic_mutate.
  eapply ensures_bind; [apply mutate_loop_records; constructor|].
  intros [samples strategies] [Hrec _]. cbn in Hrec.
  destruct samples as [|sample samples]; apply ensures_ret; cbn.
  - by repeat constructor.
  - eapply Forall2_impl; [exact Hrec|].
    intros x st (Hlab & Hvalid & config & m & Hin & Hm & _). eauto 10.
Qed.

(** X14.  Each sample that [_metamorphic_mutate] returns carries the label
    of the seed; it is the seed itself, with the strategy None, or a
    mutation that [_is_trans_valid] accepted, with the method of an entry of
    the configuration as its strategy. *)
Theorem metamorphic_mutate_samples seed mutates mutate_config mutate_num_per_seed
    (s s' : state World) mutate_samples mutate_strategies :
  _metamorphic_mutate seed mutates mutate_config mutate_num_per_seed s
    = Some (s', Ok (mutate_samples, mutate_strategies)) →
  Forall2 (λ sample strategy,
             lab sample = lab seed
             ∧ ((sample = seed ∧ strategy = PNone)
                ∨ (_is_trans_valid (img seed) (img sample) = Ok true
                   ∧ ∃ config, config ∈ mutate_config
                               ∧ getitem config "method" = Ok strategy)))
    mutate_samples mutate_strategies.
Proof. intros Hrun. exact (metamorphic_mutate_records _ _ _ _ _ _ _ Hrun). Qed.

Lemma metamorphic_mutate_bounded seed mutates mutate_config mutate_num_per_seed :
  ensures (World := World)
    (_metamorphic_mutate seed mutates mutate_config mutate_num_per_seed)
    (λ r, (length r.1 ≤ Nat.max 1 (Z.to_nat mutate_num_per_seed))%nat).
Proof.
  unfold _metamorphic_mutate.
  eapply ensures_bind; [apply mutate_loop_records; constructor|].
  intros [samples strategies] [_ Hlen]. cbn in Hlen.
  destruct samples; apply ensures_ret; cbn in *; lia.
Qed.

(** X15.  [_metamorphic_mutate] returns at most [mutate_num_per_seed]
    samples, or the single fallback sample. *)
Theorem metamorphic_mutate_count seed mutates mutate_config mutate_num_per_seed
    (s s' : state World) mutate_samples mutate_strategies :
  _metamorphic_mutate seed mutates mutate_config mutate_num_per_seed s
    = Some (s', Ok (mutate_samples, mutate_strategies)) →
  (length mutate_samples ≤ Nat.max 1 (Z.to_nat mutate_num_per_seed))%nat.
Proof. intros Hrun. exact (metamorphic_mutate_bounded _ _ _ _ _ _ _ Hrun). Qed.

End Mutants.

Lemma metamorphic_mutate_samples_witness :
  Forall2 (λ sample strategy,
             lab sample = lab Example.seed_a
             ∧ ((sample = Example.seed_a ∧ strategy = PNone)
                ∨ (_is_trans_valid (img Example.seed_a) (img sample) = Ok true
                   ∧ ∃ config, config ∈ Example.contrast_config
                               ∧ getitem config "method" = Ok strategy)))
    Example.mutants.1 Example.mutants.2.
Proof.
  apply (metamorphic_mutate_samples (C := Example.toy) Example.seed_a
           {[ "Contrast"%string ]} Example.contrast_config 3
           (Example.start [0; 0; 0; 1; 0; 0; 5]%nat) Example.mutants_final).
  vm_compute. reflexivity.
Defined.

Lemma metamorphic_mutate_count_witness :
  (length Example.mutants.1 ≤ Nat.max 1 (Z.to_nat 3))%nat.
Proof.
  apply (metamorphic_mutate_count (C := Example.toy) Example.seed_a
           {[ "Contrast"%string ]} Example.contrast_config 3
           (Example.start [0; 0; 0; 1; 0; 0; 5]%nat) Example.mutants_final
           Example.mutants.1 Example.mutants.2).
  vm_compute. reflexivity.
Defined.

(** *** [_get_coverages_and_predict] *)

Section Coverages.

Context {World : Type} {C : Collaborators World}.

Lemma coverages_grow coverage_metric (samples : list array)
    (indexes : list nat) (coverages : list Q) :
  coverage_metric ∈ ["KMNC"; "NBC"; "SNAC"]%string →
  ensures (World := World)
    (foldM (λ coverages index,
       let mutate := take (S index) samples in
       do* call (calculate_coverage mutate) in
       let* coverages :=
         if String.eqb coverage_metric "KMNC"
         then let* c := read get_kmnc in ret (coverages ++ [c]) else ret coverages in
       let* coverages :=
         if String.eqb coverage_metric "NBC"
         then let* c := read get_nbc in ret (coverages ++ [c]) else ret coverages in
       if String.eqb coverage_metric "SNAC"
       then let* c := read get_snac in ret (coverages ++ [c]) else ret coverages)
       coverages indexes)
    (λ r, length r = (length coverages + length indexes)%nat).
Proof.
  intros Hmetric. revert coverages.
  induction indexes as [|index indexes IH]; intros coverages; cbn [foldM].
  { apply ensures_ret. cbn. lia. }
  eapply (ensures_bind _ _ (λ r, length r = S (length coverages))).
  - apply ensures_then; intros _.
    rewrite !elem_of_cons, elem_of_nil in Hmetric.
    destruct Hmetric as [-> | [-> | [-> | []]]]; cbn [String.eqb Ascii.eqb];
      intros s s' r H; cbn in H; inv_run; rewrite length_app; cbn; lia.
  - intros r Hr. eapply ensures_weaken; [apply IH|]. intros r' Hr'. cbn in *. lia.
Qed.

(** X16.  For each of the three coverage metrics
    [_get_coverages_and_predict] yields one coverage per sample, so that
    [_coverage_gains] has one gain per mutant. *)
Theorem get_coverages_one_per_sample mutate_samples coverage_metric
    (s s' : state World) coverages predictions :
  coverage_metric ∈ ["KMNC"; "NBC"; "SNAC"]%string →
  _get_coverages_and_predict mutate_samples coverage_metric s
    = Some (s', Ok (coverages, predictions)) →
  length coverages = length mutate_samples
  ∧ length (_coverage_gains coverages) = length mutate_samples.
Proof.
  intros Hmetric Hrun.
  enough (ensures (_get_coverages_and_predict mutate_samples coverage_metric)
            (λ r, length r.1 = length mutate_samples)) as Hens.
  { pose proof (Hens _ _ _ Hrun) as Hlen. cbn in Hlen. split; [done|].
    unfold _coverage_gains. rewrite length_zip_with. cbn [length].
    rewrite length_removelast. lia. }
  clear Hrun. unfold _get_coverages_and_predict.
  apply ensures_then; intros predicted.
  eapply ensures_bind; [by apply coverages_grow|].
  intros r Hr. apply ensures_ret. cbn in *.
  rewrite Hr, length_seq, length_map. done.
Qed.

End Coverages.

Lemma get_coverages_one_per_sample_witness :
  length [1 # 100; 2 # 100]%Q = length [Example.seed_a; Example.attacked]
  ∧ length (_coverage_gains [1 # 100; 2 # 100]%Q)
    = length [Example.seed_a; Example.attacked].
Proof.
  apply (get_coverages_one_per_sample (C := Example.toy)
           [Example.seed_a; Example.attacked] "KMNC"
           (Example.start []) {| tape := []; world := 2%nat |}
           [1 # 100; 2 # 100]%Q [[1; 0]; [1; 0]]%Q).
  - rewrite !elem_of_cons. auto.
  - reflexivity.
Defined.

(** *** The records of a run of [fuzzing] *)

Lemma zip_records {A B} (R : Seed → pyval → Prop) xs (gs : list A) (ps : list B) sts :
  Forall2 R xs sts →
  Forall (λ item : Seed * A * B * pyval, R item.1.1.1 item.2)
    (zip (zip (zip xs gs) ps) sts).
Proof.
  intros H. revert gs ps.
  induction H as [|x st xs sts Hx _ IH]; intros [|g gs] [|p ps]; cbn;
    try constructor; [done|]. apply IH.
Qed.

Lemma record_mutant_count items acc :
  length (fuzz_samples (fold_left record_mutant items acc).1)
  = (length (fuzz_samples acc.1) + length items)%nat.
Proof.
  revert acc. induction items as [|[[[mutate cov] pred] strategy] items IH];
    intros [out seeds]; cbn [fold_left]; [cbn; lia|].
  rewrite IH. cbn. rewrite length_app. cbn. lia.
Qed.

Lemma record_mutant_each (I : Seed → Prop) (P : array → array → pyval → Prop)
    items acc :
  same_lengths acc.1 → each_record P acc.1 → Forall I acc.2 →
  Forall (λ item : Seed * Q * array * pyval,
            I item.1.1.1 ∧ P (img item.1.1.1) (lab item.1.1.1) item.2) items →
  same_lengths (fold_left record_mutant items acc).1
  ∧ each_record P (fold_left record_mutant items acc).1
  ∧ Forall I (fold_left record_mutant items acc).2.
Proof.
  intros Hlen Hrec Hqueue Hitems. revert acc Hlen Hrec Hqueue.
  induction Hitems as [|[[[mutate cov] pred] strategy] items [HI HP] _ IH];
    intros [out seeds] Hlen Hrec Hqueue; [done|].
  cbn [fold_left]. cbn in HI, HP, Hlen, Hrec, Hqueue. apply IH; cbn.
  - unfold same_lengths in *. cbn. rewrite !length_app. cbn. lia.
  - intros i x l st Hx Hl Hst. cbn in Hx, Hl, Hst.
    apply lookup_snoc_Some in Hx as [[Hi Hx]|[Hi Hx]];
      apply lookup_snoc_Some in Hl as [[Hi' Hl]|[Hi' Hl]];
      apply lookup_snoc_Some in Hst as [[Hi'' Hst]|[Hi'' Hst]];
      unfold same_lengths in Hlen; try lia.
    + by eapply Hrec.
    + by subst.
  - destruct (Qlt_bool 0 cov); [|done]. apply Forall_app. by repeat constructor.
Qed.

Lemma each_record_lists (Px Pl : array → Prop) (Pst : pyval → Prop) out :
  same_lengths out →
  each_record (λ x l st, Px x ∧ Pl l ∧ Pst st) out →
  Forall Px (fuzz_samples out) ∧ Forall Pl (true_labels out)
  ∧ Forall Pst (fuzz_strategies out).
Proof.
  intros (H1 & H2 & H3) Hrec.
  assert (Hall : ∀ i, (i < length (fuzz_samples out))%nat →
    ∃ x l st, fuzz_samples out !! i = Some x ∧ true_labels out !! i = Some l
              ∧ fuzz_strategies out !! i = Some st ∧ Px x ∧ Pl l ∧ Pst st).
  { intros i Hi.
    destruct (lookup_lt_is_Some_2 (fuzz_samples out) i) as [x Hx]; [lia|].
    destruct (lookup_lt_is_Some_2 (true_labels out) i) as [l Hl]; [lia|].
    destruct (lookup_lt_is_Some_2 (fuzz_strategies out) i) as [st Hst]; [lia|].
    exists x, l, st. repeat split; try done; by eapply (Hrec i x l st). }
  repeat split; apply Forall_lookup_2; intros i y Hy;
    apply lookup_lt_Some in Hy as Hi;
    destruct (Hall i) as (x & l & st & Hx & Hl & Hst & ? & ? & ?); try lia;
    congruence.
Qed.

Section Records.

Context {World : Type} {C : Collaborators World}.

Lemma select_next_keeps {A} (I : A → Prop) (initial_seeds : list A) :
  Forall I initial_seeds →
  ensures (World := World) (_select_next initial_seeds)
    (λ r, I r.1 ∧ Forall I r.2).
Proof.
  intros Hall. unfold _select_next. apply ensures_then; intros seed_num.
  destruct (initial_seeds !! seed_num) as [seed|] eqn:Hseed; [|apply ensures_raise].
  apply ensures_ret. cbn. split; [by eapply Forall_lookup_1 | by apply Forall_delete].
Qed.

Lemma fuzz_loop_each (I : Seed → Prop) (P : array → array → pyval → Prop)
    budget mutates mutate_config coverage_metric mutate_num_per_seed
    seed initial_seeds out :
  (∀ seed, I seed →
     ensures (World := World)
       (_metamorphic_mutate seed mutates mutate_config mutate_num_per_seed)
       (λ r, Forall2 (λ x st, I x ∧ P (img x) (lab x) st) r.1 r.2)) →
  I seed → Forall I initial_seeds → same_lengths out → each_record P out →
  ensures (World := World)
    (fuzz_loop budget mutates mutate_config coverage_metric
       mutate_num_per_seed seed initial_seeds out)
    (λ r, same_lengths r ∧ each_record P r).
Proof.
  intros Hmutate. revert seed initial_seeds out.
  induction budget as [|budget IH]; intros seed initial_seeds out Hseed Hqueue
    Hlen Hrec; [by apply ensures_ret|].
  destruct initial_seeds as [|seed1 queue]; [by apply ensures_ret|].
  cbn [fuzz_loop].
  eapply ensures_bind; [by apply Hmutate|].
  intros [mutate_samples mutate_strategies] Hmutants. cbn in Hmutants.
  apply ensures_then; intros [coverages predicts].
  pose proof (record_mutant_each I P
    (zip (zip (zip mutate_samples (_coverage_gains coverages)) predicts)
         mutate_strategies) (out, seed1 :: queue) Hlen Hrec Hqueue
    (zip_records _ _ _ _ _ Hmutants)) as (Hlen' & Hrec' & Hqueue').
  destruct (fold_left record_mutant _ _) as [out' initial_seeds'].
  eapply ensures_bind; [by apply select_next_keeps|].
  intros [seed' initial_seeds''] [Hseed' Hqueue'']. by apply IH.
Qed.

Lemma fuzz_loop_bound budget mutates mutate_config coverage_metric
    mutate_num_per_seed seed initial_seeds out :
  ensures (World := World)
    (fuzz_loop budget mutates mutate_config coverage_metric
       mutate_num_per_seed seed initial_seeds out)
    (λ r, (length (fuzz_samples r)
           ≤ length (fuzz_samples out)
             + budget * Nat.max 1 (Z.to_nat mutate_num_per_seed))%nat).
Proof.
  revert seed initial_seeds out.
  induction budget as [|budget IH]; intros seed initial_seeds out;
    [apply ensures_ret; lia|].
  destruct initial_seeds as [|seed1 queue]; [apply ensures_ret; lia|].
  cbn [fuzz_loop].
  eapply ensures_bind; [apply metamorphic_mutate_bounded|].
  intros [mutate_samples mutate_strategies] Hcount. cbn in Hcount.
  apply ensures_then; intros [coverages predicts].
  pose proof (record_mutant_count
    (zip (zip (zip mutate_samples (_coverage_gains coverages)) predicts)
         mutate_strategies) (out, seed1 :: queue)) as Hrec.
  destruct (fold_left record_mutant _ _) as [out' initial_seeds'].
  apply ensures_then; intros [seed' initial_seeds''].
  eapply ensures_weaken; [apply IH|]. intros r Hr. cbn in Hr, Hrec.
  rewrite Hrec in Hr. rewrite !length_zip in Hr. lia.
Qed.

Lemma check_seed_parts seed checked :
  check_seed seed = Ok checked → seed = [img checked; lab checked].
Proof.
  unfold check_seed. intros (_ & _ & H)%rbind_Ok.
  destruct seed as [|image [|label [|]]]; try discriminate.
  apply rbind_Ok in H as (_ & _ & H). apply rbind_Ok in H as (_ & _ & H).
  by injection H as <-.
Qed.

Lemma check_seeds_keep (I : Seed → Prop) (seeds : list (list array)) checked :
  (∀ seed s, seed ∈ seeds → check_seed seed = Ok s → I s) →
  Forall I checked →
  ensures (World := World)
    (foldM (λ seeds seed, let* s := lift (check_seed seed) in ret (seeds ++ [s]))
       checked seeds)
    (Forall I).
Proof.
  revert checked. induction seeds as [|seed seeds IH]; intros checked Hseeds Hacc;
    cbn [foldM]; [by apply ensures_ret|].
  eapply (ensures_bind _ _ (Forall I)).
  - eapply (ensures_bind _ _ (λ s, check_seed seed = Ok s));
      [by apply ensures_lift|].
    intros s Hs. apply ensures_ret. apply Forall_app. split; [done|].
    repeat constructor. eapply Hseeds; [|done]. apply elem_of_cons. auto.
  - intros checked' Hchecked'. apply IH; [|done].
    intros seed' s Hin. apply Hseeds. apply elem_of_cons. auto.
Qed.

Lemma check_mutate_config_same mutate_config checked :
  _check_mutate_config mutate_config = Ok checked → checked = mutate_config.
Proof.
  unfold _check_mutate_config. intros (_ & _ & H)%rbind_Ok.
  apply rbind_Ok in H as (h & _ & H). destruct (negb h); [discriminate|].
  by injection H.
Qed.

(** Every record of a run satisfies [P], if the initial seeds satisfy [I]
    and mutation turns seeds in [I] into records in [P] and seeds in [I]. *)
Lemma fuzzing_records (I : Seed → Prop) (P : array → array → pyval → Prop)
    mutate_config initial_seeds coverage_metric eval_metrics max_iters
    mutate_num_per_seed :
  (∀ seed s, seed ∈ initial_seeds → check_seed seed = Ok s → I s) →
  (∀ mutates seed, I seed →
     ensures (World := World)
       (_metamorphic_mutate seed mutates mutate_config mutate_num_per_seed)
       (λ r, Forall2 (λ x st, I x ∧ P (img x) (lab x) st) r.1 r.2)) →
  ensures (World := World)
    (fuzzing mutate_config initial_seeds coverage_metric eval_metrics max_iters
       mutate_num_per_seed)
    (λ r, same_lengths r.1 ∧ each_record P r.1).
Proof.
  intros Hseeds Hmutate. unfold fuzzing.
  do 4 (apply ensures_then; intros ?).
  eapply (ensures_bind _ _ (λ checked, checked = mutate_config)).
  { apply ensures_lift. intros checked. apply check_mutate_config_same. }
  intros checked ->.
  do 3 (apply ensures_then; intros ?).
  eapply ensures_bind; [by apply (check_seeds_keep I)|].
  intros seeds Hchecked.
  eapply ensures_bind; [by apply select_next_keeps|].
  intros [seed queue] [Hseed Hqueue].
  eapply ensures_bind.
  { apply (fuzz_loop_each I P);
      [intros; by apply Hmutate | done | done | by unfold same_lengths |].
    intros i x l st Hx. cbn in Hx. by rewrite lookup_nil in Hx. }
  intros out Hout. apply ensures_then; intros report. by apply ensures_ret.
Qed.

(** X17.  A run records at most [max_iters] times [mutate_num_per_seed]
    samples (one sample per turn when [mutate_num_per_seed] is below 1). *)
Theorem fuzzing_sample_bound mutate_config initial_seeds coverage_metric
    eval_metrics max_iters mutate_num_per_seed (s s' : state World) out report :
  fuzzing mutate_config initial_seeds coverage_metric eval_metrics max_iters
    mutate_num_per_seed s = Some (s', Ok (out, report)) →
  (length (fuzz_samples out)
   ≤ Z.to_nat max_iters * Nat.max 1 (Z.to_nat mutate_num_per_seed))%nat.
Proof.
  intros Hrun.
  enough (ensures (fuzzing mutate_config initial_seeds coverage_metric
            eval_metrics max_iters mutate_num_per_seed)
    (λ r, (length (fuzz_samples r.1)
           ≤ Z.to_nat max_iters * Nat.max 1 (Z.to_nat mutate_num_per_seed))%nat))
    as Hens by exact (Hens _ _ _ Hrun).
  clear. unfold fuzzing.
  do 9 (apply ensures_then; intros ?).
  apply ensures_then; intros [seed queue].
  eapply ensures_bind; [apply fuzz_loop_bound|].
  intros out Hout. apply ensures_then; intros report. by apply ensures_ret.
Qed.

(** X18.  Every label that a run returns is the label of one of the
    initial seeds: mutation never changes a label. *)
Theorem fuzzing_labels_from_seeds mutate_config initial_seeds coverage_metric
    eval_metrics max_iters mutate_num_per_seed (s s' : state World) out report :
  fuzzing mutate_config initial_seeds coverage_metric eval_metrics max_iters
    mutate_num_per_seed s = Some (s', Ok (out, report)) →
  Forall (λ label, ∃ image, [image; label] ∈ initial_seeds) (true_labels out).
Proof.
  intros Hrun.
  assert (Hens : ensures (fuzzing mutate_config initial_seeds coverage_metric
            eval_metrics max_iters mutate_num_per_seed)
    (λ r, same_lengths r.1
          ∧ each_record (λ x l st,
              True ∧ (∃ image, [image; l] ∈ initial_seeds) ∧ True) r.1)).
  { apply (fuzzing_records (λ seed, ∃ image, [image; lab seed] ∈ initial_seeds)).
    - intros seed checked Hin Hchecked. exists (img checked).
      by rewrite <- (check_seed_parts _ _ Hchecked).
    - intros mutates seed [image Hseed].
      eapply ensures_weaken; [apply metamorphic_mutate_records|].
      intros r Hr. eapply Forall2_impl; [exact Hr|].
      intros x st [Hlab _]. cbn. rewrite Hlab.
      repeat split; by exists image. }
  destruct (Hens _ _ _ Hrun) as [Hlen Hrec].
  by apply (each_record_lists _ _ _ _ Hlen Hrec).
Qed.

(** X19.  Every strategy that a run returns is None or the method of an
    entry of [mutate_config]. *)
Theorem fuzzing_strategies_from_config mutate_config initial_seeds
    coverage_metric eval_metrics max_iters mutate_num_per_seed
    (s s' : state World) out report :
  fuzzing mutate_config initial_seeds coverage_metric eval_metrics max_iters
    mutate_num_per_seed s = Some (s', Ok (out, report)) →
  Forall (λ strategy,
            strategy = PNone
            ∨ ∃ config, config ∈ mutate_config
                        ∧ getitem config "method" = Ok strategy)
    (fuzz_strategies out).
Proof.
  intros Hrun.
  assert (Hens : ensures (fuzzing mutate_config initial_seeds coverage_metric
            eval_metrics max_iters mutate_num_per_seed)
    (λ r, same_lengths r.1
          ∧ each_record (λ x l st,
              True ∧ True
              ∧ (st = PNone ∨ ∃ config, config ∈ mutate_config
                                        ∧ getitem config "method" = Ok st)) r.1)).
  { apply (fuzzing_records (λ _, True)); [done|].
    intros mutates seed _.
    eapply ensures_weaken; [apply metamorphic_mutate_records|].
    intros r Hr. eapply Forall2_impl; [exact Hr|].
    intros x st [_ [[_ ->]|[_ Hconfig]]]; cbn; repeat split; auto. }
  destruct (Hens _ _ _ Hrun) as [Hlen Hrec].
  by apply (each_record_lists _ _ _ _ Hlen Hrec).
Qed.

(** *** The pixel-only flag in a run of [fuzzing] *)

(** A seed that descends from a root is one on which the flag is kept. *)
Lemma lineage_kept mutates mutate_config (roots : list Seed) root methods x :
  root ∈ roots → lineage mutates mutate_config root methods x →
  pixel_only_kept mutates mutate_config roots x.
Proof.
  intros Hroot Hlin. exists root, methods. split; [done|]. split; [done|].
  intros (method & Hin & Hnon)%Exists_exists.
  apply list_elem_of_split in Hin as (before & after & Hsplit).
  destruct (lineage_pixel_only _ _ _ _ _ _ _ _ Hlin Hsplit Hnon)
    as (Hflag & _ & Hnext).
  done.
Qed.

Lemma fuzz_turns_erase budget mutates mutate_config coverage_metric
    mutate_num_per_seed seed initial_seeds out (s : state World) :
  fuzz_loop budget mutates mutate_config coverage_metric mutate_num_per_seed
    seed initial_seeds out s
  = match fuzz_turns budget mutates mutate_config coverage_metric
            mutate_num_per_seed seed initial_seeds out s with
    | Some (s', Ok (out', _)) => Some (s', Ok out')
    | Some (s', Raise e) => Some (s', Raise e)
    | None => None
    end.
Proof.
  revert seed initial_seeds out s.
  induction budget as [|budget IH]; intros seed initial_seeds out s; [done|].
  destruct initial_seeds as [|seed1 queue]; [done|].
  cbn [fuzz_loop fuzz_turns]. unfold bind at 1 4.
  destruct (_metamorphic_mutate _ _ _ _ s)
    as [[s1 [[mutate_samples mutate_strategies]|e]]|]; [|done..].
  unfold bind at 1 3.
  destruct (_get_coverages_and_predict _ _ s1)
    as [[s2 [[coverages predicts]|e]]|]; [|done..].
  destruct (fold_left record_mutant _ _) as [out' initial_seeds'].
  unfold bind at 1 2.
  destruct (_select_next initial_seeds' s2)
    as [[s3 [[seed' initial_seeds'']|e]]|]; [|done..].
  rewrite IH. unfold bind, ret.
  by destruct (fuzz_turns _ _ _ _ _ _ _ _ s3) as [[s4 [[out'' turns]|e]]|].
Qed.

Lemma mutate_loop_flags n seed mutates mutate_config
    mutate_samples mutate_strategies :
  Forall2 (flag_kept seed) mutate_samples mutate_strategies →
  ensures (World := World)
    (mutate_loop n seed mutates mutate_config mutate_samples mutate_strategies)
    (λ r, Forall2 (flag_kept seed) r.1 r.2).
Proof.
  revert mutate_samples mutate_strategies.
  induction n as [|n IH]; intros mutate_samples mutate_strategies Hacc;
    cbn [mutate_loop]; [by apply ensures_ret|].
  intros s s' r (s1 & [sample method] & Hrun & Hrest)%bind_Ok.
  cbn beta iota in Hrest.
  apply bind_Ok in Hrest as (s2 & valid & _ & Hrest).
  destruct valid; [|exact (IH _ _ Hacc _ _ _ Hrest)].
  refine (IH _ _ _ _ _ _ Hrest).
  apply Forall2_app; [done|]. constructor; [|constructor].
  destruct (mutate_once_flag _ _ _ _ _ _ _ Hrun) as (Hset & Hkeep & Hdraw).
  right. split.
  - intros Hnon. by rewrite Hset.
  - intros Hflag. split; [auto|]. rewrite Hkeep; auto.
Qed.

Lemma metamorphic_mutate_flags seed mutates mutate_config mutate_num_per_seed :
  ensures (World := World)
    (_metamorphic_mutate seed mutates mutate_config mutate_num_per_seed)
    (λ r, Forall2 (flag_kept seed) r.1 r.2).
Proof.
  unfold _metamorphic_mutate.
  eapply ensures_bind; [apply mutate_loop_flags; constructor|].
  intros [[|sample samples] strategies] Hall; apply ensures_ret; [|done].
  constructor; [|constructor]. by left.
Qed.

(** What the loop puts back into the queue are samples of the turn, as
    [_metamorphic_mutate] made them. *)
Lemma record_mutant_queue (I : Seed → Prop)
    (items : list (Seed * Q * array * pyval)) (acc : outputs * list Seed) :
  Forall I acc.2 → Forall (λ item, I item.1.1.1) items →
  Forall I (fold_left record_mutant items acc).2.
Proof.
  revert acc. induction items as [|[[[mutate cov] pred] strategy] items IH];
    intros [out queue] Hqueue Hitems; [done|].
  apply Forall_cons in Hitems as [Hmutate Hitems].
  cbn [fold_left]. apply IH; [|done]. cbn in *.
  destruct (Qlt_bool 0 cov); [|done].
  apply Forall_app. split; [done|]. by constructor.
Qed.

Lemma zip_samples (I : Seed → Prop) (mutate_samples : list Seed)
    (gains : list Q) (predicts : list array) (strategies : list pyval) :
  Forall I mutate_samples →
  Forall (λ item : Seed * Q * array * pyval, I item.1.1.1)
    (zip (zip (zip mutate_samples gains) predicts) strategies).
Proof.
  rewrite !Forall_forall. intros Hall [[[mutate cov] pred] strategy] Hin.
  cbn. apply Hall.
  apply elem_of_zip_l, elem_of_zip_l, elem_of_zip_l in Hin. exact Hin.
Qed.

(** One turn of [fuzz_turns] that goes on: the run of the body, and the
    rest of the loop. *)
Lemma fuzz_turns_step budget mutates mutate_config coverage_metric
    mutate_num_per_seed seed seed1 queue out (s s' : state World) out' turns :
  fuzz_turns (S budget) mutates mutate_config coverage_metric
    mutate_num_per_seed seed (seed1 :: queue) out s = Some (s', Ok (out', turns)) →
  ∃ s1 s3 mutate_samples mutate_strategies seed' queue' out1 rest,
    _metamorphic_mutate seed mutates mutate_config mutate_num_per_seed s
      = Some (s1, Ok (mutate_samples, mutate_strategies))
    ∧ (∀ I : Seed → Prop, Forall I (seed1 :: queue) → Forall I mutate_samples →
         Forall I (seed' :: queue'))
    ∧ fuzz_turns budget mutates mutate_config coverage_metric
        mutate_num_per_seed seed' queue' out1 s3 = Some (s', Ok (out', rest))
    ∧ turns = {| turn_seed := seed; turn_queue := seed1 :: queue;
                 turn_samples := mutate_samples;
                 turn_strategies := mutate_strategies |} :: rest.
Proof.
  intros Hrun. cbn [fuzz_turns] in Hrun.
  apply bind_Ok in Hrun as (s1 & [mutate_samples mutate_strategies] & Hmut & Hrun).
  apply bind_Ok in Hrun as (s2 & [coverages predicts] & _ & Hrun).
  pose proof (λ I Hqueue Hsamples, record_mutant_queue I
    (zip (zip (zip mutate_samples (_coverage_gains coverages)) predicts)
         mutate_strategies) (out, seed1 :: queue) Hqueue
    (zip_samples I _ _ _ _ Hsamples)) as Hqueue'.
  destruct (fold_left record_mutant _ _) as [out1 initial_seeds'].
  cbn [snd] in Hqueue'.
  apply bind_Ok in Hrun as (s3 & [seed' initial_seeds''] & Hsel & Hrun).
  apply bind_Ok in Hrun as (s4 & [out2 turns'] & Hrest & Hrun).
  injection Hrun as <- <- <-.
  exists s1, s3, mutate_samples, mutate_strategies, seed', initial_seeds'', out1,
    turns'.
  split; [done|]. split; [|done].
  intros I HI Hsamples.
  destruct (select_next_keeps I _ (Hqueue' I HI Hsamples) _ _ _ Hsel)
    as [Hseed' Hrest']. by constructor.
Qed.

Lemma fuzz_turns_head budget mutates mutate_config coverage_metric
    mutate_num_per_seed seed initial_seeds out (s s' : state World) out' turns :
  fuzz_turns budget mutates mutate_config coverage_metric mutate_num_per_seed
    seed initial_seeds out s = Some (s', Ok (out', turns)) →
  ∃ t rest, turns = t :: rest
            ∧ turn_seed t = seed ∧ turn_queue t = initial_seeds.
Proof.
  intros Hrun. destruct budget as [|budget].
  { injection Hrun as <- <- <-. by eexists _, _. }
  destruct initial_seeds as [|seed1 queue].
  { injection Hrun as <- <- <-. by eexists _, _. }
  apply fuzz_turns_step in Hrun as (? & ? & ? & ? & ? & ? & ? & rest & _ & _ & _ & ->).
  by eexists _, _.
Qed.

Lemma fuzz_turns_descend budget mutates mutate_config coverage_metric
    mutate_num_per_seed (roots : list Seed) seed initial_seeds out
    (s s' : state World) out' turns :
  Forall (λ x, ∃ root methods,
            root ∈ roots ∧ lineage mutates mutate_config root methods x)
    (seed :: initial_seeds) →
  fuzz_turns budget mutates mutate_config coverage_metric mutate_num_per_seed
    seed initial_seeds out s = Some (s', Ok (out', turns)) →
  Forall (λ t, Forall (pixel_only_kept mutates mutate_config roots)
                 (turn_seed t :: turn_queue t)
               ∧ Forall2 (flag_kept (turn_seed t))
                   (turn_samples t) (turn_strategies t)) turns.
Proof.
  set (D := λ x : Seed, ∃ root methods,
              root ∈ roots ∧ lineage mutates mutate_config root methods x).
  assert (Hnow : ∀ seed queue, Forall D (seed :: queue) →
    Forall (pixel_only_kept mutates mutate_config roots) (seed :: queue)).
  { intros seed0 queue Hall. eapply Forall_impl; [exact Hall|].
    intros x (root & methods & Hroot & Hlin). by eapply lineage_kept. }
  revert seed initial_seeds out s s' out' turns.
  induction budget as [|budget IH];
    intros seed initial_seeds out s s' out' turns Hall Hrun.
  { injection Hrun as <- <- <-. constructor; [|constructor].
    split; [by apply Hnow | constructor]. }
  destruct initial_seeds as [|seed1 queue].
  { injection Hrun as <- <- <-. constructor; [|constructor].
    split; [by apply Hnow | constructor]. }
  apply fuzz_turns_step in Hrun
    as (s1 & s3 & mutate_samples & mutate_strategies & seed' & queue' & out1
        & rest & Hmut & Hnext & Hrest & ->).
  apply Forall_cons in Hall as Hparts. destruct Hparts as [Hseed Hqueue].
  destruct Hseed as (root & methods & Hroot & Hlin).
  pose proof (metamorphic_mutate_lineage _ _ _ mutate_num_per_seed _ _ Hlin
                _ _ _ Hmut) as Hsamples. cbn in Hsamples.
  assert (Hsamples' : Forall D mutate_samples).
  { eapply Forall_impl; [exact Hsamples|]. intros x [ms Hx]. by exists root, ms. }
  constructor.
  - split; [by apply Hnow|]. cbn.
    exact (metamorphic_mutate_flags _ _ _ _ _ _ _ Hmut).
  - eapply IH; [|exact Hrest]. by apply Hnext.
Qed.

Lemma fuzz_turns_queue budget mutates mutate_config coverage_metric
    mutate_num_per_seed seed initial_seeds out (s s' : state World) out' turns :
  fuzz_turns budget mutates mutate_config coverage_metric mutate_num_per_seed
    seed initial_seeds out s = Some (s', Ok (out', turns)) →
  ∀ i t t', turns !! i = Some t → turns !! S i = Some t' →
    Forall (λ x, x ∈ turn_queue t ∨ x ∈ turn_samples t)
      (turn_seed t' :: turn_queue t').
Proof.
  revert seed initial_seeds out s s' out' turns.
  induction budget as [|budget IH];
    intros seed initial_seeds out s s' out' turns Hrun i t t' Ht Ht'.
  { injection Hrun as <- <- <-. by destruct i. }
  destruct initial_seeds as [|seed1 queue].
  { injection Hrun as <- <- <-. by destruct i. }
  apply fuzz_turns_step in Hrun
    as (s1 & s3 & mutate_samples & mutate_strategies & seed' & queue' & out1
        & rest & Hmut & Hnext & Hrest & ->).
  destruct i as [|i]; [|by eapply IH].
  injection Ht as <-. cbn in Ht' |- *.
  apply fuzz_turns_head in Hrest as (t0 & rest' & -> & <- & <-).
  injection Ht' as <-.
  apply (Hnext (λ x, x ∈ seed1 :: queue ∨ x ∈ mutate_samples)).
  - apply Forall_forall. auto.
  - apply Forall_forall. auto.
Qed.

Lemma check_seed_flag seed checked :
  check_seed seed = Ok checked → only_pixel checked = 0.
Proof.
  unfold check_seed. intros (_ & _ & H)%rbind_Ok.
  destruct seed as [|image [|label [|]]]; try discriminate.
  apply rbind_Ok in H as (_ & _ & H). apply rbind_Ok in H as (_ & _ & H).
  by injection H as <-.
Qed.

(** C2.  In every run of [fuzzing] that returns, the loop starts from
    initial seeds whose pixel-only flag is 0, and its turns are these.
    - In each turn, apart from the fallback (the seed itself, recorded
      with None), a sample that [_metamorphic_mutate] made with a method
      that is not a pixel-value transform (an affine transform or an
      attack) carries the flag; on a seed that carries the flag only
      Contrast, Brightness, Blur and Noise are recorded, and the samples
      carry the flag again.
    - From one turn to the next, the seed in hand and the queue are taken
      from the queue of the turn before and its samples, as they were
      made: what is queued again keeps its flag.
    - So every seed in hand or in the queue descends from an initial seed
      by mutation attempts; when one of them used a method that is not a
      pixel-value transform, the seed carries the flag, and every attempt
      on it, valid or not, draws a pixel-value transform and yields a
      flagged sample. *)
Theorem pixel_only_after_non_pixel_mutation mutate_config initial_seeds
    coverage_metric eval_metrics max_iters mutate_num_per_seed
    (s s' : state World) out report :
  fuzzing mutate_config initial_seeds coverage_metric eval_metrics max_iters
    mutate_num_per_seed s = Some (s', Ok (out, report)) →
  ∃ mutates seed queue (s1 s2 : state World) turns,
    Forall (λ x, only_pixel x = 0 ∧ [img x; lab x] ∈ initial_seeds)
      (seed :: queue)
    ∧ fuzz_turns (Z.to_nat max_iters) mutates mutate_config coverage_metric
        mutate_num_per_seed seed queue no_outputs s1 = Some (s2, Ok (out, turns))
    ∧ Forall (λ t,
        Forall (pixel_only_kept mutates mutate_config (seed :: queue))
          (turn_seed t :: turn_queue t)
        ∧ Forall2 (flag_kept (turn_seed t))
            (turn_samples t) (turn_strategies t)) turns
    ∧ ∀ i t t', turns !! i = Some t → turns !! S i = Some t' →
        Forall (λ x, x ∈ turn_queue t ∨ x ∈ turn_samples t)
          (turn_seed t' :: turn_queue t').
Proof.
  intros H. unfold fuzzing in H.
  apply bind_Ok in H as (sa & eval_metrics_ & _ & H).
  apply bind_Ok in H as (sb & [] & _ & H).
  apply bind_Ok in H as (sc & [] & _ & H).
  apply bind_Ok in H as (sd & [] & _ & H).
  apply bind_Ok in H as (se & checked & Hchecked & H).
  injection Hchecked as _ Hchecked.
  apply check_mutate_config_same in Hchecked as ->.
  apply bind_Ok in H as (sf & mutates & _ & H).
  apply bind_Ok in H as (sg & [] & _ & H).
  apply bind_Ok in H as (sh & [] & _ & H).
  apply bind_Ok in H as (si & seeds & Hseeds & H).
  apply bind_Ok in H as (s1 & [seed queue] & Hsel & H).
  apply bind_Ok in H as (s2 & out0 & Hloop & H).
  apply bind_Ok in H as (s3 & report0 & _ & H).
  injection H as _ <- _.
  set (I := λ x : Seed, only_pixel x = 0 ∧ [img x; lab x] ∈ initial_seeds).
  assert (Hroots : Forall I seeds).
  { refine (check_seeds_keep I initial_seeds [] _ _ _ _ _ Hseeds); [|constructor].
    intros pair x Hin Hx. split; [by eapply check_seed_flag|].
    by rewrite <- (check_seed_parts _ _ Hx). }
  pose proof (select_next_keeps I _ Hroots _ _ _ Hsel) as [Hseed Hqueue].
  cbn in Hseed, Hqueue.
  rewrite fuzz_turns_erase in Hloop.
  destruct (fuzz_turns _ _ _ _ _ _ _ _ s1) as [[s2' [[out' turns]|e]]|] eqn:Hturns;
    try discriminate.
  injection Hloop as <- <-.
  exists mutates, seed, queue, s1, s2', turns.
  split; [by constructor|]. split; [done|]. split.
  - eapply fuzz_turns_descend; [|exact Hturns].
    apply Forall_forall. intros x Hx. exists x, []. split; [done|].
    apply lineage_root.
  - by eapply fuzz_turns_queue.
Qed.

End Records.

Lemma pixel_only_after_non_pixel_mutation_witness :
  ∃ mutates seed queue (s1 s2 : state nat) turns,
    Forall (λ x, only_pixel x = 0 ∧ [img x; lab x] ∈ Example.two_seeds)
      (seed :: queue)
    ∧ fuzz_turns (C := Example.toy) (Z.to_nat 2) mutates Example.attack_config
        "KMNC" 2 seed queue no_outputs s1
      = Some (s2, Ok (Example.flagged_outputs, turns))
    ∧ Forall (λ t,
        Forall (pixel_only_kept (C := Example.toy) mutates
                  Example.attack_config (seed :: queue))
          (turn_seed t :: turn_queue t)
        ∧ Forall2 (flag_kept (turn_seed t))
            (turn_samples t) (turn_strategies t)) turns
    ∧ ∀ i t t', turns !! i = Some t → turns !! S i = Some t' →
        Forall (λ x, x ∈ turn_queue t ∨ x ∈ turn_samples t)
          (turn_seed t' :: turn_queue t').
Proof.
  apply (pixel_only_after_non_pixel_mutation (C := Example.toy)
           Example.attack_config Example.two_seeds "KMNC" (PStr "auto") 2 2
           (Example.start ([0; 1; 0; 1]%nat ++ repeat 0%nat 26))
           Example.flagged_final Example.flagged_outputs
           (Some Example.flagged_report)).
  vm_compute. reflexivity.
Defined.

Lemma fuzzing_sample_bound_witness :
  (length (fuzz_samples Example.toy_outputs)
   ≤ Z.to_nat 5 * Nat.max 1 (Z.to_nat 3))%nat.
Proof.
  apply (fuzzing_sample_bound (C := Example.toy)
           Example.contrast_config Example.two_seeds "KMNC" (PStr "auto") 5 3
           (Example.start (repeat 0%nat 40)) Example.toy_final
           Example.toy_outputs (Some Example.toy_report)).
  vm_compute. reflexivity.
Defined.

Lemma fuzzing_labels_from_seeds_witness :
  Forall (λ label, ∃ image, [image; label] ∈ Example.two_seeds)
    (true_labels Example.toy_outputs).
Proof.
  apply (fuzzing_labels_from_seeds (C := Example.toy)
           Example.contrast_config Example.two_seeds "KMNC" (PStr "auto") 5 3
           (Example.start (repeat 0%nat 40)) Example.toy_final
           Example.toy_outputs (Some Example.toy_report)).
  vm_compute. reflexivity.
Defined.

Lemma fuzzing_strategies_from_config_witness :
  Forall (λ strategy,
            strategy = PNone
            ∨ ∃ config, config ∈ Example.contrast_config
                        ∧ getitem config "method" = Ok strategy)
    (fuzz_strategies Example.toy_outputs).
Proof.
  apply (fuzzing_strategies_from_config (C := Example.toy)
           Example.contrast_config Example.two_seeds "KMNC" (PStr "auto") 5 3
           (Example.start (repeat 0%nat 40)) Example.toy_final
           Example.toy_outputs (Some Example.toy_report)).
  vm_compute. reflexivity.
Defined.

(** *** What [fuzzing] does before it draws anything *)

Section Quiet.

Context {World : Type} {C : Collaborators World}.

Local Abbreviation quietly := (quietly (World := World)).

Lemma quietly_lift {A} (r : result A) (Q : A → Prop) :
  (∀ a, r = Ok a → Q a) → quietly (lift r) Q.
Proof. intros H s. exists s, r. auto. Qed.

Lemma quietly_pure {A} (r : result A) : quietly (lift r) (λ _, True).
Proof. by apply quietly_lift. Qed.

Lemma quietly_ret {A} (a : A) (Q : A → Prop) : Q a → quietly (ret a) Q.
Proof.
  intros H s. exists s, (Ok a). split; [done|]. split; [done|]. by intros ? [= <-].
Qed.

Lemma quietly_done {A} (a : A) : quietly (ret a) (λ _, True).
Proof. by apply quietly_ret. Qed.

Lemma quietly_raise {A} e (Q : A → Prop) : quietly (raise e) Q.
Proof.
  intros s. exists s, (Raise e). split; [done|]. split; [done|]. intros ? [=].
Qed.

Lemma quietly_call {A} (f : World → World * result A) :
  quietly (call f) (λ _, True).
Proof.
  intros s. unfold call. destruct (f (world s)) as [w r].
  by exists {| tape := tape s; world := w |}, r.
Qed.

Lemma quietly_bind {A B} (m : M World A) (k : A → M World B) P (Q : B → Prop) :
  quietly m P → (∀ a, P a → quietly (k a) Q) → quietly (bind m k) Q.
Proof.
  intros Hm Hk s. destruct (Hm s) as (s1 & r & Hrun & Htape & HP).
  unfold bind. rewrite Hrun. destruct r as [a|e].
  - destruct (Hk a (HP a eq_refl) s1) as (s2 & r2 & Hrun2 & Htape2 & HQ).
    exists s2, r2. split; [done|]. split; [congruence | done].
  - exists s1, (Raise e). split; [done|]. split; [done|]. intros ? [=].
Qed.

Lemma quietly_weaken {A} (m : M World A) (P Q : A → Prop) :
  quietly m P → (∀ a, P a → Q a) → quietly m Q.
Proof.
  intros Hm HPQ s. destruct (Hm s) as (s' & r & ? & ? & HP).
  exists s', r. repeat split; auto.
Qed.

Lemma quietly_foldM {A B} (f : B → A → M World B) (l : list A) (b : B) :
  (∀ b x, quietly (f b x) (λ _, True)) → quietly (foldM f b l) (λ _, True).
Proof.
  intros Hf. revert b. induction l as [|x l IH]; intros b; cbn [foldM].
  - apply quietly_done.
  - eapply quietly_bind; [apply Hf | auto].
Qed.

Lemma init_mutates_quiet mutate_config :
  quietly (_init_mutates mutate_config) (λ _, True).
Proof.
  apply quietly_foldM. intros mutates mutate.
  eapply quietly_bind; [apply quietly_pure|]. intros method _.
  destruct method; try apply quietly_raise.
  case_bool_decide; [|apply quietly_raise].
  eapply quietly_bind; [apply quietly_call|]. intros _ _. apply quietly_done.
Qed.

Lemma check_seed_arity seed checked :
  check_seed seed = Ok checked → length seed = 2%nat.
Proof. intros ->%check_seed_parts. done. Qed.

Lemma check_seeds_reject (seeds : list (list array)) checked :
  Exists (λ seed, length seed ≠ 2%nat) seeds →
  quietly
    (foldM (λ seeds seed, let* s := lift (check_seed seed) in ret (seeds ++ [s]))
       checked seeds)
    (λ _, False).
Proof.
  intros Hbad. revert checked.
  induction Hbad as [seed seeds Hseed|seed seeds _ IH]; intros checked;
    cbn [foldM].
  - eapply (quietly_bind _ _ (λ _, False)); [|done].
    eapply (quietly_bind _ _ (λ _, False)); [|done].
    apply quietly_lift. intros s Hs%check_seed_arity. done.
  - eapply (quietly_bind _ _ (λ _, True)); [|auto].
    eapply quietly_bind; [apply quietly_pure|]. intros s _.
    apply quietly_done.
Qed.

(** X20.  When the list of initial seeds is empty, or one of the seeds is
    not a pair of an image and a label, [fuzzing] ends in an exception and
    has taken no random choice: no seed was selected and nothing was
    mutated. *)
Theorem fuzzing_rejects_bad_seeds mutate_config initial_seeds coverage_metric
    eval_metrics max_iters mutate_num_per_seed (s : state World) :
  initial_seeds = [] ∨ Exists (λ seed, length seed ≠ 2%nat) initial_seeds →
  ∃ s' e,
    fuzzing mutate_config initial_seeds coverage_metric eval_metrics max_iters
      mutate_num_per_seed s = Some (s', Raise e)
    ∧ tape s' = tape s.
Proof.
  intros Hbad.
  enough (quietly (fuzzing mutate_config initial_seeds coverage_metric
            eval_metrics max_iters mutate_num_per_seed) (λ _, False)) as Hquiet.
  { destruct (Hquiet s) as (s' & [a|e] & Hrun & Htape & Hnever).
    - destruct (Hnever a eq_refl).
    - by exists s', e. }
  unfold fuzzing.
  eapply quietly_bind; [apply quietly_pure|]. intros eval_metrics_ _.
  eapply (quietly_bind _ _ (λ _, True)).
  { destruct (negb _); [apply quietly_raise | apply quietly_done]. }
  intros _ _.
  eapply quietly_bind; [apply quietly_pure|]. intros _ _.
  eapply quietly_bind; [apply quietly_pure|]. intros _ _.
  eapply quietly_bind; [apply quietly_pure|]. intros checked _.
  eapply quietly_bind; [apply init_mutates_quiet|]. intros mutates _.
  eapply quietly_bind; [apply quietly_pure|]. intros _ _.
  destruct Hbad as [->|Hbad].
  - eapply (quietly_bind _ _ (λ _, False)); [apply quietly_raise | done].
  - eapply (quietly_bind _ _ (λ _, True)).
    { destruct initial_seeds; [apply quietly_raise | apply quietly_done]. }
    intros _ _.
    eapply (quietly_bind _ _ (λ _, False)); [by apply check_seeds_reject | done].
Qed.

End Quiet.

Lemma fuzzing_rejects_bad_seeds_witness :
  ∃ s' e,
    fuzzing (C := Example.toy) Example.contrast_config
      [[Example.image4; [1; 0]%Q]; [Example.image4]] "KMNC" (PStr "auto") 5 3
      (Example.start [3; 1; 4]%nat) = Some (s', Raise e)
    ∧ tape s' = tape (Example.start [3; 1; 4]%nat).
Proof.
  apply (fuzzing_rejects_bad_seeds (C := Example.toy)).
  right. apply Exists_cons_tl, Exists_cons_hd. cbn. lia.
Defined.

(** *** [_evaluate]: what it touches and what it reports *)

Lemma wanted_list (l : list pyval) (name : string) :
  ∃ b : bool, wanted (PList l) name = Ok b ∧ (b = true ↔ PStr name ∈ l).
Proof.
  eexists. split; [reflexivity|].
  rewrite existsb_exists. split.
  - intros (x & Hin & Hx). destruct x; try discriminate.
    apply String.eqb_eq in Hx as ->. by apply list_elem_of_In.
  - intros Hin. exists (PStr name). split; [by apply list_elem_of_In|].
    apply String.eqb_refl.
Qed.

Lemma elem_of_key_if (b : bool) (key x : string) :
  x ∈ key_if b key ↔ b = true ∧ x = key.
Proof. destruct b; cbn; set_solver. Qed.

Lemma rate_positive (l : list bool) :
  existsb id l = true → (0 < np.rate l <= 1)%Q.
Proof.
  intros Hsome. unfold np.rate.
  assert (Hle : (length (filter (λ x, x = true) l) ≤ length l)%nat)
    by apply length_filter.
  assert (Hpos : (0 < length (filter (λ x, x = true) l))%nat).
  { apply existsb_exists in Hsome as (x & Hin & Hx). destruct x; [|done].
    apply list_elem_of_In in Hin.
    assert (Hf : true ∈ filter (λ x, x = true) l) by (by apply list_elem_of_filter).
    destruct (filter _ l); [by apply elem_of_nil in Hf | cbn; lia]. }
  set (a := Z.of_nat (length (filter (λ x, x = true) l))) in *.
  set (b := Z.of_nat (length l)) in *.
  assert (0 < a) by lia. assert (a ≤ b) by lia.
  assert (0 < inject_Z a)%Q by (rewrite <- Zlt_Qlt with (x := 0%Z); lia).
  assert (0 < inject_Z b)%Q by (rewrite <- Zlt_Qlt with (x := 0%Z); lia).
  assert (inject_Z a <= inject_Z b)%Q by (by rewrite <- Zle_Qle).
  split.
  - apply Qlt_shift_div_l; [done | lra].
  - apply Qle_shift_div_r; [done | lra].
Qed.

Lemma rates_in_range_insert key v report :
  key ≠ "Accuracy"%string → key ≠ "Attack_success_rate"%string →
  rates_in_range report → rates_in_range (<[key := v]> report).
Proof.
  intros ?? [Hacc Hasr]. split; intros w; rewrite lookup_insert_ne by done; auto.
Qed.

Section Evaluate.

Context {World : Type} {C : Collaborators World}.

Local Abbreviation silently := (silently (World := World)).

Lemma silently_lift {A} (r : result A) (Q : A → Prop) :
  (∀ a, r = Ok a → Q a) → silently (lift r) Q.
Proof. intros H s. exists r. auto. Qed.

Lemma silently_pure {A} (r : result A) : silently (lift r) (λ _, True).
Proof. by apply silently_lift. Qed.

Lemma silently_ret {A} (a : A) : silently (ret a) (λ b, b = a).
Proof. intros s. exists (Ok a). split; [done|]. by intros ? [= <-]. Qed.

Lemma silently_bind {A B} (m : M World A) (k : A → M World B) P (Q : B → Prop) :
  silently m P → (∀ a, P a → silently (k a) Q) → silently (bind m k) Q.
Proof.
  intros Hm Hk s. destruct (Hm s) as (r & Hrun & HP).
  unfold bind. rewrite Hrun. destruct r as [a|e].
  - exact (Hk a (HP a eq_refl) s).
  - exists (Raise e). split; [done|]. intros ? [=].
Qed.

Lemma silently_weaken {A} (m : M World A) (P Q : A → Prop) :
  silently m P → (∀ a, P a → Q a) → silently m Q.
Proof.
  intros Hm HPQ s. destruct (Hm s) as (r & ? & HP). exists r. split; auto.
Qed.

Lemma silently_any {A} (m : M World A) (P : A → Prop) :
  silently m P → silently m (λ _, True).
Proof. intros Hm. by eapply silently_weaken. Qed.

(** X21.  When none of 'kmnc', 'nbc' and 'snac' is asked for, [_evaluate]
    leaves the coverage engine and the rest of the world as they are. *)
Theorem evaluate_without_coverage out (l : list pyval) (s : state World) :
  PStr "kmnc" ∉ l → PStr "nbc" ∉ l → PStr "snac" ∉ l →
  ∃ r, _evaluate out (PList l) s = Some (s, r).
Proof.
  intros Hkmnc Hnbc Hsnac.
  enough (silently (_evaluate out (PList l)) (λ _, True)) as Hsilent.
  { destruct (Hsilent s) as (r & Hrun & _). eauto. }
  assert (Hno : ∀ name, PStr name ∉ l →
    silently (lift (wanted (PList l) name)) (λ w, w = false)).
  { intros name Hname. apply silently_lift.
    destruct (wanted_list l name) as (b & -> & Hb). intros w [= <-].
    destruct b; [|done]. destruct Hname. by apply Hb. }
  unfold _evaluate.
  eapply silently_bind; [apply silently_pure|]. intros label_classes _.
  eapply silently_bind; [apply silently_pure|]. intros pred_classes _.
  eapply silently_bind; [apply silently_pure|]. intros w _.
  eapply (silently_bind _ _ (λ _, True)).
  { destruct w; [|eapply silently_any, silently_ret].
    eapply silently_bind; [apply silently_pure|]. intros some _.
    eapply silently_any, silently_ret. }
  intros report1 _.
  eapply silently_bind; [apply silently_pure|]. intros w' _.
  eapply (silently_bind _ _ (λ _, True)).
  { destruct w'; [|eapply silently_any, silently_ret].
    eapply silently_bind; [apply silently_pure|]. intros temp _.
    eapply silently_bind; [apply silently_pure|]. intros some _.
    eapply silently_any, silently_ret. }
  intros report2 _.
  eapply silently_bind; [by apply Hno|]. intros w1 ->.
  eapply silently_bind; [by apply Hno|]. intros w2 ->.
  eapply silently_bind; [by apply Hno|]. intros w3 ->.
  eapply silently_bind; [eapply silently_any, silently_ret|]. intros _ _.
  eapply silently_bind; [by apply Hno|]. intros ? ->.
  eapply silently_bind; [eapply silently_any, silently_ret|]. intros report3 _.
  eapply silently_bind; [by apply Hno|]. intros ? ->.
  eapply silently_bind; [eapply silently_any, silently_ret|]. intros report4 _.
  eapply silently_bind; [by apply Hno|]. intros ? ->.
  eapply silently_bind; [eapply silently_any, silently_ret|]. intros report5 _.
  eapply silently_any, silently_ret.
Qed.

Lemma ensures_known {A} (a : A) :
  ensures (World := World) (lift (Ok a)) (λ b, b = a).
Proof. apply ensures_lift. by intros ? [= <-]. Qed.

(** X22.  For a list of metrics, the report of [_evaluate] has an entry
    exactly for each of the five metrics that the list names, and no other
    entry. *)
Theorem evaluate_list_keys (out : outputs) (l : list pyval)
    (s s' : state World) report :
  _evaluate out (PList l) s = Some (s', Ok report) →
  ("Accuracy"%string ∈ dom report ↔ PStr "accuracy" ∈ l)
  ∧ ("Attack_success_rate"%string ∈ dom report ↔ PStr "attack_success_rate" ∈ l)
  ∧ ("Neural_coverage_KMNC"%string ∈ dom report ↔ PStr "kmnc" ∈ l)
  ∧ ("Neural_coverage_NBC"%string ∈ dom report ↔ PStr "nbc" ∈ l)
  ∧ ("Neural_coverage_SNAC"%string ∈ dom report ↔ PStr "snac" ∈ l)
  ∧ dom report ⊆ report_keys.
Proof.
  destruct (wanted_list l "accuracy") as (b1 & E1 & <-).
  destruct (wanted_list l "attack_success_rate") as (b2 & E2 & <-).
  destruct (wanted_list l "kmnc") as (b3 & E3 & <-).
  destruct (wanted_list l "nbc") as (b4 & E4 & <-).
  destruct (wanted_list l "snac") as (b5 & E5 & <-).
  enough (ensures (_evaluate out (PList l)) (λ report,
            dom report = key_if b1 "Accuracy" ∪ key_if b2 "Attack_success_rate"
              ∪ key_if b3 "Neural_coverage_KMNC" ∪ key_if b4 "Neural_coverage_NBC"
              ∪ key_if b5 "Neural_coverage_SNAC")) as Hens.
  { intros Hrun. rewrite (Hens _ _ _ Hrun).
    split_and!;
      [rewrite !elem_of_union, !elem_of_key_if; intuition discriminate..|].
    intros key. rewrite !elem_of_union, !elem_of_key_if. unfold report_keys.
    intros [[[[[_ ->]|[_ ->]]|[_ ->]]|[_ ->]]|[_ ->]];
      rewrite !elem_of_union, !elem_of_singleton; tauto. }
  unfold _evaluate. rewrite E1, E2, E3, E4, E5.
  apply ensures_then; intros label_classes.
  apply ensures_then; intros pred_classes.
  eapply ensures_bind; [apply ensures_known|]; intros ? ->.
  eapply (ensures_bind _ _ (λ r, dom r = key_if b1 "Accuracy")).
  { destruct b1; [|by apply ensures_ret].
    apply ensures_then; intros some. apply ensures_ret. cbn. set_solver. }
  intros report1 Hreport1.
  eapply ensures_bind; [apply ensures_known|]; intros ? ->.
  eapply (ensures_bind _ _ (λ r, dom r = dom report1 ∪ key_if b2 "Attack_success_rate")).
  { destruct b2; [|apply ensures_ret; cbn; set_solver].
    do 2 (apply ensures_then; intros ?). apply ensures_ret. cbn. set_solver. }
  intros report2 Hreport2.
  do 4 (apply ensures_then; intros ?).
  eapply ensures_bind; [apply ensures_known|]; intros ? ->.
  eapply (ensures_bind _ _ (λ r, dom r = dom report2 ∪ key_if b3 "Neural_coverage_KMNC")).
  { destruct b3; [|apply ensures_ret; cbn; set_solver].
    apply ensures_then; intros ?. apply ensures_ret. cbn. set_solver. }
  intros report3 Hreport3.
  eapply ensures_bind; [apply ensures_known|]; intros ? ->.
  eapply (ensures_bind _ _ (λ r, dom r = dom report3 ∪ key_if b4 "Neural_coverage_NBC")).
  { destruct b4; [|apply ensures_ret; cbn; set_solver].
    apply ensures_then; intros ?. apply ensures_ret. cbn. set_solver. }
  intros report4 Hreport4.
  eapply ensures_bind; [apply ensures_known|]; intros ? ->.
  eapply (ensures_bind _ _ (λ r, dom r = dom report4 ∪ key_if b5 "Neural_coverage_SNAC")).
  { destruct b5; [|apply ensures_ret; cbn; set_solver].
    apply ensures_then; intros ?. apply ensures_ret. cbn. set_solver. }
  intros report5 Hreport5. apply ensures_ret.
  by rewrite Hreport5, Hreport4, Hreport3, Hreport2, Hreport1.
Qed.

(** X23.  Whatever the metrics, a reported accuracy is the integer 0 or a
    fraction in (0, 1], and a reported attack success rate is None or a
    fraction in [0, 1): a rate of exactly 1 is never reported. *)
Theorem evaluate_rates (out : outputs) (metrics : pyval)
    (s s' : state World) report :
  _evaluate out metrics s = Some (s', Ok report) → rates_in_range report.
Proof.
  revert s s' report. change (ensures (_evaluate out metrics) rates_in_range).
  unfold _evaluate.
  apply ensures_then; intros label_classes.
  apply ensures_then; intros pred_classes.
  apply ensures_then; intros w.
  eapply (ensures_bind _ _ rates_in_range).
  { destruct w.
    - eapply (ensures_bind _ _ (λ some, some = true →
                 existsb id (default [] (np.equal label_classes pred_classes)) = true)).
      + apply ensures_lift. intros some Hany.
        destruct (np.equal _ _); [|done]. by injection Hany as <-.
      + intros some Hsome. apply ensures_ret. split; intros v.
        * rewrite lookup_insert_eq. intros [= <-].
          destruct some; [|by left]. right. eexists. split; [done|].
          by apply rate_positive, Hsome.
        * rewrite lookup_insert_ne, lookup_empty by done. done.
    - apply ensures_ret. split; intros v; by rewrite lookup_empty. }
  intros report1 Hreport1.
  apply ensures_then; intros w'.
  eapply (ensures_bind _ _ rates_in_range).
  { destruct w'; [|by apply ensures_ret].
    apply ensures_then; intros temp.
    eapply (ensures_bind _ _ (λ some, some = true →
                 existsb id (default [] temp) = true)).
    - apply ensures_lift. intros some Hany.
      destruct temp; [|done]. by injection Hany as <-.
    - intros some Hsome. apply ensures_ret. destruct Hreport1 as [Hacc _].
      split; intros v.
      + rewrite lookup_insert_ne by done. apply Hacc.
      + rewrite lookup_insert_eq. intros [= <-].
        destruct some; [|by left]. right. eexists. split; [done|].
        destruct (rate_positive _ (Hsome eq_refl)). split; lra. }
  intros report2 Hreport2.
  do 4 (apply ensures_then; intros ?).
  apply ensures_then; intros w3.
  eapply (ensures_bind _ _ rates_in_range).
  { destruct w3; [|by apply ensures_ret].
    apply ensures_then; intros ?. apply ensures_ret.
    by apply rates_in_range_insert. }
  intros report3 Hreport3.
  apply ensures_then; intros w4.
  eapply (ensures_bind _ _ rates_in_range).
  { destruct w4; [|by apply ensures_ret].
    apply ensures_then; intros ?. apply ensures_ret.
    by apply rates_in_range_insert. }
  intros report4 Hreport4.
  apply ensures_then; intros w5.
  eapply (ensures_bind _ _ rates_in_range).
  { destruct w5; [|by apply ensures_ret].
    apply ensures_then; intros ?. apply ensures_ret.
    by apply rates_in_range_insert. }
  intros report5 Hreport5. by apply ensures_ret.
Qed.

End Evaluate.

Lemma evaluate_without_coverage_witness :
  ∃ r, _evaluate (C := Example.toy) Example.fooled
         (PList [PStr "accuracy"; PStr "attack_success_rate"])
         {| tape := [2%nat]; world := 7%nat |}
       = Some ({| tape := [2%nat]; world := 7%nat |}, r).
Proof.
  apply (evaluate_without_coverage (C := Example.toy));
    rewrite !elem_of_cons, elem_of_nil; intros [[=]|[[=]|[]]].
Defined.

Lemma evaluate_list_keys_witness :
  ("Accuracy"%string ∈ dom Example.partial_report
     ↔ PStr "accuracy" ∈ [PStr "accuracy"; PStr "kmnc"])
  ∧ ("Attack_success_rate"%string ∈ dom Example.partial_report
     ↔ PStr "attack_success_rate" ∈ [PStr "accuracy"; PStr "kmnc"])
  ∧ ("Neural_coverage_KMNC"%string ∈ dom Example.partial_report
     ↔ PStr "kmnc" ∈ [PStr "accuracy"; PStr "kmnc"])
  ∧ ("Neural_coverage_NBC"%string ∈ dom Example.partial_report
     ↔ PStr "nbc" ∈ [PStr "accuracy"; PStr "kmnc"])
  ∧ ("Neural_coverage_SNAC"%string ∈ dom Example.partial_report
     ↔ PStr "snac" ∈ [PStr "accuracy"; PStr "kmnc"])
  ∧ dom Example.partial_report ⊆ report_keys.
Proof.
  apply (evaluate_list_keys (C := Example.toy) Example.mixed
           [PStr "accuracy"; PStr "kmnc"] (Example.start [])
           Example.partial_final Example.partial_report).
  vm_compute. reflexivity.
Defined.

Lemma evaluate_rates_witness : rates_in_range Example.mixed_report.
Proof.
  apply (evaluate_rates (C := Example.toy) Example.mixed (PStr "auto")
           (Example.start []) Example.mixed_final Example.mixed_report).
  vm_compute. reflexivity.
Defined.

(** *** [MembershipInference.train] and [MembershipInference.eval] *)

Lemma fold_checks_run {A} (f : A → result unit) (l : list A) :
  fold_left (λ acc x, rbind acc (λ _, f x)) l (Ok tt) = Ok tt
  ∨ ∃ x e, x ∈ l ∧ f x = Raise e
      ∧ fold_left (λ acc x, rbind acc (λ _, f x)) l (Ok tt) = Raise e.
Proof.
  induction l as [|x l IH]; [by left|]. cbn [fold_left rbind].
  destruct (f x) as [[]|e] eqn:Hx.
  - destruct IH as [IH | (y & e & Hy & Hfy & IH)]; [by left|].
    right. exists y, e. split; [apply elem_of_cons; auto | done].
  - right. exists x, e. split; [apply elem_of_cons; auto|].
    split; [done|]. apply fold_left_rbind_Raise with (f := λ _ x, f x).
Qed.

Section Inference.

Context {Dataset Features Attacker World : Type}.
Context {A : Attack Dataset Features Attacker World}.

Lemma check_attack_config_Ok (config : pyval) :
  check_attack_config config = Ok tt → well_formed_config config.
Proof.
  unfold check_attack_config. destruct config as [| | | | | |  | |d]; try done.
  case_bool_decide as Hkeys; [|done].
  destruct (dict_lookup d "method") as [[| | | |method| | | |]|] eqn:Hm; try done.
  case_bool_decide as Hmethod; [|done]. intros _.
  exists d, method. split; [done|]. split; [|done].
  intros key. rewrite <- (elem_of_list_to_set (C := gset string)), Hkeys.
  rewrite elem_of_union, !elem_of_singleton. tauto.
Qed.

Lemma check_attack_config_Raise (config : pyval) e :
  check_attack_config config = Raise e →
  e = TypeError ∨ e = KeyError ∨ e = ValueError.
Proof.
  unfold check_attack_config. intros H.
  repeat (first [case_bool_decide | case_match]); simplify_eq; auto.
Qed.

(** X24.  [train] checks every configuration before it trains anything: if
    one entry of the list is not a dict with exactly the keys method and
    params whose method is, in lower case, one of knn, lr, mlp and rf, the
    call raises TypeError, KeyError or ValueError, and neither the attack
    list nor the world outside has changed. *)
Theorem train_rejects_bad_config (dataset_train dataset_test : Dataset)
    (configs : list pyval) (s : state (Inference Attacker World)) :
  Exists (λ config, ¬ well_formed_config config) configs →
  ∃ e, train (Some dataset_train) (Some dataset_test) (PList configs) s
       = Some (s, Raise e)
     ∧ (e = TypeError ∨ e = KeyError ∨ e = ValueError).
Proof.
  intros Hbad. unfold train.
  destruct (fold_checks_run check_attack_config configs)
    as [Hok | (config & e & Hin & Hconfig & Hrun)].
  - apply fold_checks_Ok in Hok as [_ Hall].
    apply Exists_exists in Hbad as (config & Hin & Hbad).
    rewrite Forall_forall in Hall. destruct Hbad.
    by apply check_attack_config_Ok, Hall.
  - exists e. split; [|by eapply check_attack_config_Raise].
    unfold bind, lift. by rewrite Hrun.
Qed.



Lemma outside_call_run {X} (f : World → World * result X) s :
  ∃ s' r, outside_call (Attacker := Attacker) f s = Some (s', r)
    ∧ attack_list (world s') = attack_list (world s) ∧ tape s' = tape s.
Proof.
  unfold outside_call, call. destruct (f (outside (world s))) as [w r].
  eauto.
Qed.

Lemma train_loop_run features labels (configs : list pyval) s :
  ∃ s' r new,
    forM_ (λ config,
             let* attacker := outside_call (get_attack_model features labels config) in
             attack_list_append attacker) configs s = Some (s', r)
    ∧ attack_list (world s') = attack_list (world s) ++ new
    ∧ (length new ≤ length configs)%nat
    ∧ (r = Ok tt → length new = length configs)
    ∧ tape s' = tape s.
Proof.
  unfold forM_. revert s. induction configs as [|config configs IH]; intros s.
  - exists s, (Ok tt), []. cbn. rewrite app_nil_r. auto.
  - cbn [foldM].
    destruct (outside_call_run (get_attack_model features labels config) s)
      as (s1 & r1 & Hrun1 & Hlist1 & Htape1).
    unfold bind at 1 2. rewrite Hrun1. destruct r1 as [attacker|e].
    + destruct (IH {| tape := tape s1;
                      world := {| attack_list := attack_list (world s1) ++ [attacker];
                                  outside := outside (world s1) |} |})
        as (s' & r & new & Hrun & Hlist & Hle & Hlen & Htape).
      exists s', r, (attacker :: new). cbn in Hlist, Htape.
      split; [exact Hrun|]. rewrite Hlist, Hlist1, <- app_assoc. cbn.
      split_and!; [done | lia | intros ?; f_equal; auto | congruence].
    + exists s1, (Raise e), []. rewrite app_nil_r. cbn.
      split_and!; [done | done | lia | done | done].
Qed.

(** X25.  A call of [train] that ends, normally or in an exception, has kept
    the attackers that were there and appended new ones: at most one for
    each configuration, and exactly one for each when it returns, which it
    only does for configurations that are all well formed. *)
Theorem train_appends (dataset_train dataset_test : option Dataset)
    (configs : list pyval) (s s' : state (Inference Attacker World))
    (r : result unit) :
  train dataset_train dataset_test (PList configs) s = Some (s', r) →
  ∃ new,
    attack_list (world s') = attack_list (world s) ++ new
    ∧ (length new ≤ length configs)%nat
    ∧ (r = Ok tt → length new = length configs
                   ∧ Forall well_formed_config configs).
Proof.
  assert (Hstop : ∀ e, Some (s, Raise e) = Some (s', r) →
    ∃ new,
      attack_list (world s') = attack_list (world s) ++ new
      ∧ (length new ≤ length configs)%nat
      ∧ (r = Ok tt → length new = length configs
                     ∧ Forall well_formed_config configs)).
  { intros e [= <- <-]. exists []. rewrite app_nil_r. cbn.
    split_and!; [done | lia | done]. }
  unfold train. destruct dataset_train as [d1|]; [|apply Hstop].
  destruct dataset_test as [d2|]; [|apply Hstop].
  destruct (fold_checks_run check_attack_config configs)
    as [Hok | (config & e & Hin & Hconfig & Hrun)].
  - unfold bind at 1, lift. rewrite Hok.
    apply fold_checks_Ok in Hok as [_ Hall].
    destruct (outside_call_run (_transform d1 d2) s)
      as (s1 & r1 & Hrun1 & Hlist1 & Htape1).
    unfold bind at 1. rewrite Hrun1. destruct r1 as [[features labels]|e].
    + destruct (train_loop_run features labels configs s1)
        as (s2 & r2 & new & Hrun & Hlist & Hle & Hlen & Htape).
      rewrite Hrun. intros [= <- <-].
      exists new. rewrite Hlist, Hlist1.
      split_and!; [done | done |].
      intros Hr. split; [auto|].
      eapply Forall_impl; [exact Hall|]. apply check_attack_config_Ok.
    + intros [= <- <-]. exists []. rewrite app_nil_r.
      split_and!; [done | cbn; lia | done].
  - unfold bind at 1, lift. rewrite Hrun. apply Hstop.
Qed.

Lemma forallb_str_in (elems : list pyval) (names : list string) :
  forallb (λ elem, str_in elem names) elems = true →
  Forall (λ elem, ∃ name, elem = PStr name ∧ name ∈ names) elems.
Proof.
  rewrite forallb_forall, Forall_forall. intros H elem Hin.
  apply list_elem_of_In, H in Hin. destruct elem; try discriminate.
  eexists. split; [done|]. by apply bool_decide_eq_true in Hin.
Qed.

(** X26.  A metric that is not one of precision, accuracy and recall
    makes [eval] raise TypeError or ValueError before anything is
    computed: the attack list and the world outside are unchanged. *)
Theorem eval_rejects_bad_metrics (dataset_train dataset_test : Dataset)
    (elems : list pyval) (s : state (Inference Attacker World)) :
  Exists (λ elem, ∀ name, elem = PStr name → name ∉ metrics_list) elems →
  ∃ e, eval (Some dataset_train) (Some dataset_test) (PList elems) s
       = Some (s, Raise e)
     ∧ (e = TypeError ∨ e = ValueError).
Proof.
  intros Hbad. unfold eval. cbn [elements_of]. unfold bind at 1, lift.
  destruct (forallb hashable elems); [|exists TypeError; auto].
  unfold bind at 1, ret.
  destruct (forallb (λ elem, str_in elem metrics_list) elems) eqn:Hall;
    [|exists ValueError; auto].
  apply forallb_str_in in Hall.
  apply Exists_exists in Hbad as (elem & Hin & Hbad).
  rewrite Forall_forall in Hall.
  destruct (Hall elem Hin) as (name & -> & Hname). by destruct (Hbad name).
Qed.

Lemma eval_item_from pred labels (options : list string) (acc : result (gmap string Q))
    (item : gmap string Q) :
  fold_left (λ acc option,
               rbind acc (λ item,
                 rbind (_eval_info pred labels option) (λ score,
                   Ok (<[option := score]> item))))
            options acc = Ok item →
  ∃ item0, acc = Ok item0
    ∧ (∀ name, name ∈ dom item ↔ name ∈ dom item0 ∨ name ∈ options)
    ∧ (∀ name score, item !! name = Some score →
         item0 !! name = Some score ∨ _eval_info pred labels name = Ok score).
Proof.
  revert acc. induction options as [|option options IH]; intros acc H.
  - cbn in H. subst acc. exists item. split; [done|]. split; [|auto].
    intros name. rewrite elem_of_nil. tauto.
  - cbn [fold_left] in H. apply IH in H as (item1 & H1 & Hdom & Hscore).
    apply rbind_Ok in H1 as (item0 & -> & H1).
    apply rbind_Ok in H1 as (score & Heval & [= <-]).
    exists item0. split; [done|]. split.
    + intros name. rewrite Hdom, dom_insert, elem_of_union, elem_of_singleton,
        elem_of_cons. tauto.
    + intros name score' Hname. apply Hscore in Hname as [Hname|Hname]; [|auto].
      destruct (decide (option = name)) as [->|Hne].
      * rewrite lookup_insert_eq in Hname. injection Hname as <-. auto.
      * rewrite lookup_insert_ne in Hname by done. auto.
Qed.

Lemma eval_loop_run features labels (options : list string)
    (attackers : list Attacker) acc (s s' : state (Inference Attacker World))
    result :
  foldM (λ result attacker,
           let* pred := outside_call (attacker_predict attacker features) in
           let* item := lift (eval_item pred labels options) in
           ret (result ++ [item]))
        acc attackers s = Some (s', Ok result) →
  ∃ items, result = acc ++ items
    ∧ attack_list (world s') = attack_list (world s)
    ∧ Forall2 (λ attacker item, ∃ w w' pred,
        attacker_predict attacker features w = (w', Ok pred)
        ∧ (∀ name, name ∈ dom item ↔ name ∈ options)
        ∧ ∀ name score, item !! name = Some score →
            _eval_info pred labels name = Ok score) attackers items.
Proof.
  revert acc s. induction attackers as [|attacker attackers IH]; intros acc s H.
  - injection H as <- <-. exists []. by rewrite app_nil_r.
  - cbn [foldM] in H.
    apply bind_Ok in H as (s1 & acc1 & Hstep & H).
    apply IH in H as (items & -> & Hlist & Hitems).
    apply bind_Ok in Hstep as (s2 & pred & Hpred & Hstep).
    apply bind_Ok in Hstep as (s3 & item & Hitem & Hstep).
    injection Hstep as <- <-. injection Hitem as <- Hitem.
    unfold outside_call, call in Hpred.
    destruct (attacker_predict attacker features (outside (world s)))
      as [w' r] eqn:Hw'.
    injection Hpred as <- ->. cbn [world attack_list] in Hlist.
    exists (item :: items). rewrite <- app_assoc. cbn.
    split_and!; [done | done |].
    constructor; [|done]. exists (outside (world s)), w', pred.
    split; [done|].
    apply eval_item_from in Hitem as (item0 & [= <-] & Hdom & Hscore).
    split.
    + intros name. rewrite Hdom, dom_empty, elem_of_empty. tauto.
    + intros name score Hname. apply Hscore in Hname as [Hname|]; [|done].
      by rewrite lookup_empty in Hname.
Qed.

(** X27.  When [eval] returns, both arguments were datasets and
    [_transform] has returned their features and labels; the attack list is
    as before, and the result has one item for each attacker of the list, in
    the order of the list: the keys of the item are the requested metrics,
    and under each key stands the score [_eval_info] gives, for that
    metric, to a prediction of this attacker on the features against the
    labels. *)
Theorem eval_one_item_per_attacker (dataset_train dataset_test : option Dataset)
    (elems : list pyval) (s s' : state (Inference Attacker World)) result :
  eval dataset_train dataset_test (PList elems) s = Some (s', Ok result) →
  ∃ d1 d2 w1 features labels,
    dataset_train = Some d1 ∧ dataset_test = Some d2
    ∧ _transform d1 d2 (outside (world s)) = (w1, Ok (features, labels))
    ∧ attack_list (world s') = attack_list (world s)
    ∧ length result = length (attack_list (world s))
    ∧ Forall2 (λ attacker item, ∃ w w' pred,
        attacker_predict attacker features w = (w', Ok pred)
        ∧ (∀ name, name ∈ dom item ↔ PStr name ∈ elems)
        ∧ ∀ name score, item !! name = Some score →
            _eval_info pred labels name = Ok score)
        (attack_list (world s)) result.
Proof.
  unfold eval. intros H.
  destruct dataset_train as [d1|]; [|discriminate].
  destruct dataset_test as [d2|]; [|discriminate].
  apply bind_Ok in H as (s0 & elems' & [= <- <-] & H).
  apply bind_Ok in H as (s1 & [] & Hhash & H).
  destruct (forallb hashable elems); [|discriminate]. injection Hhash as <-.
  apply bind_Ok in H as (s2 & [] & Hnames & H).
  destruct (forallb (λ elem, str_in elem metrics_list) elems); [|discriminate].
  injection Hnames as <-.
  apply bind_Ok in H as (s3 & [features labels] & Htransform & H).
  apply bind_Ok in H as (s4 & attackers & [= <- <-] & H).
  apply eval_loop_run in H as (items & -> & Hlist & Hitems).
  unfold outside_call, call in Htransform.
  destruct (_transform d1 d2 (outside (world s))) as [w1 r1] eqn:Hw1.
  injection Htransform as <- ->. cbn [world attack_list] in *.
  exists d1, d2, w1, features, labels.
  split_and!; [done | done | done | done | |].
  - symmetry. by eapply Forall2_length.
  - eapply Forall2_impl; [exact Hitems|]. cbn beta.
    intros attacker item (w & w' & pred & Hpred & Hdom & Hscore).
    exists w, w', pred. split; [done|]. split; [|done].
    intros name. rewrite Hdom, elem_of_remove_dups, list_elem_of_omap.
    split.
    + intros (elem & Hin & Helem). destruct elem; try discriminate.
      by injection Helem as ->.
    + intros Hin. by exists (PStr name).
Qed.

End Inference.

Lemma train_rejects_bad_config_witness :
  ∃ e, train (A := Example.toy_attack) (Some [7; 2]) (Some [1; 9])
         (PList Example.svm_config) Example.trained
       = Some (Example.trained, Raise e)
     ∧ (e = TypeError ∨ e = KeyError ∨ e = ValueError).
Proof.
  apply (train_rejects_bad_config (A := Example.toy_attack)).
  apply Exists_cons_tl, Exists_cons_hd.
  intros (d & method & [= <-] & _ & [= <-] & Hin). vm_compute in Hin.
  repeat (apply elem_of_cons in Hin as [[=]|Hin]). by apply elem_of_nil in Hin.
Defined.

Lemma eval_rejects_bad_metrics_witness :
  ∃ e, eval (A := Example.toy_attack) (Some [7; 2]) (Some [1; 9])
         (PList [PStr "precision"; PStr "f1"]) Example.trained
       = Some (Example.trained, Raise e)
     ∧ (e = TypeError ∨ e = ValueError).
Proof.
  apply (eval_rejects_bad_metrics (A := Example.toy_attack)).
  apply Exists_cons_tl, Exists_cons_hd. intros name [= <-] Hin.
  repeat (apply elem_of_cons in Hin as [[=]|Hin]). by apply elem_of_nil in Hin.
Defined.

Lemma eval_one_item_per_attacker_witness :
  ∃ d1 d2 w1 features labels,
    Some [7; 2] = Some d1 ∧ Some [1; 9] = Some d2
    ∧ _transform (Attack := Example.toy_attack) d1 d2
        (outside (world Example.trained)) = (w1, Ok (features, labels))
    ∧ attack_list (world Example.scored_final)
      = attack_list (world Example.trained)
    ∧ length Example.scored = length (attack_list (world Example.trained))
    ∧ Forall2 (λ attacker item, ∃ w w' pred,
        attacker_predict (Attack := Example.toy_attack) attacker features w
        = (w', Ok pred)
        ∧ (∀ name, name ∈ dom item
             ↔ PStr name ∈ [PStr "accuracy"; PStr "recall"; PStr "accuracy"])
        ∧ ∀ name score, item !! name = Some score →
            _eval_info pred labels name = Ok score)
        (attack_list (world Example.trained)) Example.scored.
Proof.
  apply (eval_one_item_per_attacker (A := Example.toy_attack)
           (Some [7; 2]) (Some [1; 9])).
  vm_compute. reflexivity.
Defined.

Lemma train_appends_witness :
  ∃ new,
    attack_list (world Example.retrained)
    = attack_list (world Example.trained) ++ new
    ∧ (length new ≤ 1)%nat
    ∧ (Ok tt = Ok tt →
       length new = 1%nat
       ∧ Forall well_formed_config
           [PDict [("method", PStr "KNN"); ("params", PDict [])]]).
Proof.
  apply (train_appends (A := Example.toy_attack) (Some [7; 2]) (Some [1; 9])
           [PDict [("method", PStr "KNN"); ("params", PDict [])]]
           Example.trained Example.retrained (Ok tt)).
  vm_compute. reflexivity.
Defined.
